(** * The OnlyOffice command-service client of the connector

    A shallow embedding of
    [tdrive/connectors/onlyoffice-connector/src/services/onlyoffice.service.ts]:
    the error-code enumeration, the typed command requests, [postUnsafe] and
    [post], the per-command methods of [OnlyOfficeService], the polled licence
    value and [processForgotten].

    The asynchronous code is sequential ([await] at every step), so a method is
    a function from the state of the outside world to an outcome (a returned
    value or a thrown failure), the next state of the world, and the calls it
    issued on the way, in order.  Logging never changes control flow and is
    left out. *)

From stdpp Require Import list strings pretty relations.

(** ** ErrorCode *)

Inductive ErrorCode :=
  | SUCCESS
  | KEY_MISSING_OR_DOC_NOT_FOUND
  | INVALID_CALLBACK_URL
  | INTERNAL_SERVER_ERROR
  | FORCE_SAVE_BUT_NO_CHANGES_TO_APPLY
  | COMMAND_NOT_CORRECT
  | INVALID_TOKEN.

Definition ErrorCode_value (c : ErrorCode) : Z :=
  match c with
  | SUCCESS => 0
  | KEY_MISSING_OR_DOC_NOT_FOUND => 1
  | INVALID_CALLBACK_URL => 2
  | INTERNAL_SERVER_ERROR => 3
  | FORCE_SAVE_BUT_NO_CHANGES_TO_APPLY => 4
  | COMMAND_NOT_CORRECT => 5
  | INVALID_TOKEN => 6
  end%Z.

Definition ErrorCode_name (c : ErrorCode) : string :=
  match c with
  | SUCCESS => "SUCCESS"
  | KEY_MISSING_OR_DOC_NOT_FOUND => "KEY_MISSING_OR_DOC_NOT_FOUND"
  | INVALID_CALLBACK_URL => "INVALID_CALLBACK_URL"
  | INTERNAL_SERVER_ERROR => "INTERNAL_SERVER_ERROR"
  | FORCE_SAVE_BUT_NO_CHANGES_TO_APPLY => "FORCE_SAVE_BUT_NO_CHANGES_TO_APPLY"
  | COMMAND_NOT_CORRECT => "COMMAND_NOT_CORRECT"
  | INVALID_TOKEN => "INVALID_TOKEN"
  end.

Definition ErrorCode_members : list ErrorCode :=
  [ SUCCESS; KEY_MISSING_OR_DOC_NOT_FOUND; INVALID_CALLBACK_URL;
    INTERNAL_SERVER_ERROR; FORCE_SAVE_BUT_NO_CHANGES_TO_APPLY;
    COMMAND_NOT_CORRECT; INVALID_TOKEN ].

(** A numeric TypeScript enum is, at run time, an object that maps every
    member name to its number and every number (as a property key) back to
    the member name.  A property holds a number or a string. *)
Inductive EnumSlot :=
  | SlotNumber (n : Z)
  | SlotString (s : string).

Global Instance EnumSlot_eq_dec : EqDecision EnumSlot.
Proof. solve_decision. Defined.

Definition EnumObject := list (string * EnumSlot).

Definition ErrorCode_object : EnumObject :=
  map (λ c, (pretty (ErrorCode_value c), SlotString (ErrorCode_name c))) ErrorCode_members
  ++ map (λ c, (ErrorCode_name c, SlotNumber (ErrorCode_value c))) ErrorCode_members.

(** Modelled from the spec: the generic description of an unrecognized code
    that [Utils.getKeyForValueSafe] falls back to.  The spec fixes that there
    is one, not its wording. *)
Definition unrecognized_description (ctxMsg : string) (value : Z) : string :=
  "Unrecognized " +:+ ctxMsg +:+ " value: " +:+ pretty value.

(** Modelled from the spec: [Utils.getKeyForValueSafe] of [@/utils] is not
    among the sources.  The spec describes it as a best-effort enumeration
    lookup of the label of a value, which falls back to a generic description
    of the unrecognized code rather than failing the lookup itself. *)
Definition getKeyForValueSafe (value : Z) (object : EnumObject) (ctxMsg : string) : string :=
  match filter (λ entry, entry.2 = SlotNumber value) object with
  | (key, _) :: _ => key
  | [] => unrecognized_description ctxMsg value
  end.

Definition ErrorCodeFromValue (value : Z) : string :=
  getKeyForValueSafe value ErrorCode_object "OnlyOffice.ErrorCode".

(** ** The command catalogue *)

(** The fields typed [object] in the licence response. *)
#[local] Set Warnings "-register-all".
Inductive JSValue :=
  | JSNull
  | JSBoolean (b : bool)
  | JSNumber (n : Z)
  | JSString (s : string)
  | JSArray (items : list JSValue)
  | JSObject (fields : list (string * JSValue)).
#[local] Set Warnings "register-all".

Module Version.
Record Response := { version : string }.
End Version.

Module ForceSave.
Record Response := { key : string }.
End ForceSave.

Module GetForgotten.
Record Response := { key : string; url : string }.
End GetForgotten.

Module GetForgottenList.
Record Response := { keys : list string }.
End GetForgottenList.

Module DeleteForgotten.
Record Response := { key : string }.
End DeleteForgotten.

Module License.
Record Response := { license : JSValue; server : JSValue; quota : JSValue }.
End License.

(** The request classes that extend [BaseRequest], with their constructor
    arguments. *)
Inductive Request :=
  | Version_Request
  | ForceSave_Request (key userdata : string)
  | GetForgotten_Request (key : string)
  | GetForgottenList_Request
  | DeleteForgotten_Request (key : string)
  | License_Request.

(** The field [c] that the [BaseRequest] constructor receives. *)
Definition c (req : Request) : string :=
  match req with
  | Version_Request => "version"
  | ForceSave_Request _ _ => "forcesave"
  | GetForgotten_Request _ => "getForgotten"
  | GetForgottenList_Request => "getForgottenList"
  | DeleteForgotten_Request _ => "deleteForgotten"
  | License_Request => "license"
  end.

(** The type argument [TSuccessResponse] each request class instantiates
    [BaseRequest] with. *)
Definition TSuccessResponse (req : Request) : Type :=
  match req with
  | Version_Request => Version.Response
  | ForceSave_Request _ _ => ForceSave.Response
  | GetForgotten_Request _ => GetForgotten.Response
  | GetForgottenList_Request => GetForgottenList.Response
  | DeleteForgotten_Request _ => DeleteForgotten.Response
  | License_Request => License.Response
  end.

(** [ErrorResponse | TSuccessResponse]: what the body of a reply is cast to.
    Both alternatives carry [error]; the code tells them apart by that field
    alone, and reads the other fields only when it is [SUCCESS].  The cast is
    unchecked: a reply is taken here to have the shape the types declare, a
    number for [error] and the fields of its command.  A body of another
    shape (no [keys] under code 0, say, on which [processForgotten] would
    fail at [forgottenFiles.length]) is outside this model. *)
Record ResponseData (T : Type) := { error : Z; fields : T }.
Arguments error {T} _.
Arguments fields {T} _.

(** ** Failures *)

(** [CommandError extends Error]: the public [errorCode] and the message
    given to [super]. *)
Record CommandError := { errorCode : Z; message : string }.

(** What a promise of this file can be rejected with. *)
Inductive Failure :=
  | TransportFailure (reason : string)
  | CommandFailure (e : CommandError)
  | ProcessorFailure (reason : string).

(** ** Calls that leave the service *)

Inductive PostResult :=
  | NoResponse (reason : string)
  | Responded (error : Z) (raw : string).

Inductive Event :=
  | Posted (req : Request) (res : PostResult)
  | Processed (key url : string) (res : string + bool).

(** ** The world outside the service *)

Record Runtime := {
  World : Type;
  (** [axios.post(joinURL([ONLY_OFFICE_SERVER, ...]), request)]: the promise is
      rejected with a reason, or resolves to [result.data]. *)
  axios_post : ∀ req : Request, World → (string + ResponseData (TSuccessResponse req)) * World;
  (** [Math.floor(Math.random() * bound)]. *)
  Math_random_below : nat → World → nat * World;
  Date_now : World → Z;
  (** The polling period of [@config]. *)
  onlyOfficeConnectivityCheckPeriodMS : Z;
  JSON_stringify_request : Request → string;
  JSON_stringify_response : ∀ req : Request, ResponseData (TSuccessResponse req) → string
}.

(** The caller's [processor]: it resolves to a boolean or is rejected.  What
    it does meanwhile, to the server or to anything else, is a change of the
    world; the events of a pass are the calls the pass itself issues. *)
Definition Processor (rt : Runtime) : Type :=
  string → string → World rt → (string + bool) * World rt.

(** ** Promises as runs *)

Record Run (S A : Type) := {
  outcome : Failure + A;
  world_after : S;
  events : list Event
}.
Arguments outcome {S A} _.
Arguments world_after {S A} _.
Arguments events {S A} _.

Definition Async (S A : Type) : Type := S → Run S A.

Definition resolve {S A} (a : A) : Async S A :=
  λ w, {| outcome := inr a; world_after := w; events := [] |}.

Definition reject {S A} (f : Failure) : Async S A :=
  λ w, {| outcome := inl f; world_after := w; events := [] |}.

(** [const x = await m; k x] *)
Definition await {S A B} (k : A → Async S B) (m : Async S A) : Async S B :=
  λ w,
    let r := m w in
    match outcome r with
    | inl f => {| outcome := inl f; world_after := world_after r; events := events r |}
    | inr a =>
        let r' := k a (world_after r) in
        {| outcome := outcome r'; world_after := world_after r';
           events := events r ++ events r' |}
    end.

Global Instance Async_ret {S} : MRet (Async S) := λ A, @resolve S A.
Global Instance Async_bind {S} : MBind (Async S) := λ A B, @await S A B.

(** [m.then(f)] *)
Definition then_ {S A B} (m : Async S A) (f : A → B) : Async S B :=
  a ← m; resolve (f a).

(** A synchronous step: it reads and changes the world, cannot fail and
    issues no call. *)
Definition sync {S A} (f : S → A * S) : Async S A :=
  λ w, let (a, w') := f w in {| outcome := inr a; world_after := w'; events := [] |}.

(** ** Shuffling *)

(** [[list[i], list[j]] = [list[j], list[i]]] for two indices inside the
    array; the shuffle draws no other. *)
Definition swap {A} (i j : nat) (l : list A) : list A :=
  match l !! i, l !! j with
  | Some x, Some y => <[i := y]> (<[j := x]> l)
  | _, _ => l
  end.

(** Modelled from the spec: the loop of [Utils.fisherYattesShuffleInPlace],
    on given draws, first draw first.  The spec asks for a uniform in-place
    Fisher-Yates shuffle: for [i] from the last index down to 1, an index
    [j] with [0 <= j <= i] is drawn and the elements at [i] and [j] are
    exchanged. *)
Fixpoint shuffle_with {A} (i : nat) (draws : list nat) (l : list A) : list A :=
  match i, draws with
  | S i', j :: draws' => shuffle_with i' draws' (swap i j l)
  | _, _ => l
  end.

Section Service.
Context (rt : Runtime).

Abbreviation W := (World rt).

(** Modelled from the spec: the same loop, drawing from the world. *)
Fixpoint shuffle_from {A} (i : nat) (l : list A) (w : W) : list A * W :=
  match i with
  | O => (l, w)
  | S i' =>
      let (j, w') := Math_random_below rt (S i) w in
      shuffle_from i' (swap i j l) w'
  end.

(** Modelled from the spec: [Utils.fisherYattesShuffleInPlace] of [@/utils]
    is not among the sources.  [processForgotten] drops what the call
    returns and goes on with the array it passed, so the shuffle is taken to
    work in place, as it is named; the new content of the array is the
    result here. *)
Definition fisherYattesShuffleInPlace {A} (l : list A) (w : W) : list A * W :=
  shuffle_from (length l - 1) l w.

(** The draws the world hands to [shuffle_from i]. *)
Fixpoint draws_from (i : nat) (w : W) : list nat :=
  match i with
  | O => []
  | S i' =>
      let (j, w') := Math_random_below rt (S i) w in
      j :: draws_from i' w'
  end.

(** *** CommandError, postUnsafe, post *)

Definition CommandError_message (errorCode : Z) (req res : string) : string :=
  "OnlyOffice command service error " +:+ ErrorCodeFromValue errorCode
  +:+ " (" +:+ pretty errorCode +:+ "): Requested " +:+ req +:+ " got " +:+ res.

Definition new_CommandError (errorCode : Z) (req : Request)
    (res : ResponseData (TSuccessResponse req)) : CommandError :=
  {| errorCode := errorCode;
     message :=
       CommandError_message errorCode
         (JSON_stringify_request rt req) (JSON_stringify_response rt req res) |}.

Definition postUnsafe (req : Request) : Async W (ResponseData (TSuccessResponse req)) :=
  λ w,
    let (result, w') := axios_post rt req w in
    match result with
    | inl reason =>
        {| outcome := inl (TransportFailure reason); world_after := w';
           events := [Posted req (NoResponse reason)] |}
    | inr data =>
        {| outcome := inr data; world_after := w';
           events := [Posted req (Responded (error data) (JSON_stringify_response rt req data))] |}
    end.

Definition post (req : Request) : Async W (ResponseData (TSuccessResponse req)) :=
  result ← postUnsafe req;
  if bool_decide (error result = ErrorCode_value SUCCESS) then resolve result
  else reject (CommandFailure (new_CommandError (error result) req result)).

(** *** The methods of OnlyOfficeService *)

Definition getVersion : Async W string :=
  then_ (post Version_Request) (λ response, Version.version (fields response)).

Definition getLicense : Async W (ResponseData License.Response) :=
  post License_Request.

Definition forceSave (key userdata : string) : Async W string :=
  then_ (post (ForceSave_Request key userdata)) (λ response, ForceSave.key (fields response)).

Definition getForgottenList : Async W (list string) :=
  then_ (post GetForgottenList_Request) (λ response, GetForgottenList.keys (fields response)).

Definition getForgotten (key : string) : Async W string :=
  then_ (post (GetForgotten_Request key)) (λ response, GetForgotten.url (fields response)).

Definition deleteForgotten (key : string) : Async W string :=
  then_ (post (DeleteForgotten_Request key)) (λ response, DeleteForgotten.key (fields response)).

(** [await processor(forgottenFileKey, forgottenFileURL)] *)
Definition call_processor (processor : Processor rt) (key url : string) : Async W bool :=
  λ w,
    let (result, w') := processor key url w in
    {| outcome := match result with
                  | inl reason => inl (ProcessorFailure reason)
                  | inr shouldDelete => inr shouldDelete
                  end;
       world_after := w';
       events := [Processed key url result] |}.

(** The body of the [for ... of] loop of [processForgotten]; it returns the
    new value of [deleted]. *)
Definition processForgotten_body (processor : Processor rt)
    (forgottenFileKey : string) (deleted : nat) : Async W nat :=
  forgottenFileURL ← getForgotten forgottenFileKey;
  shouldDelete ← call_processor processor forgottenFileKey forgottenFileURL;
  if shouldDelete : bool then
    _ ← deleteForgotten forgottenFileKey;
    mret (S deleted)
  else mret deleted.

Fixpoint processForgotten_loop (processor : Processor rt)
    (forgottenFiles : list string) (deleted : nat) : Async W nat :=
  match forgottenFiles with
  | [] => mret deleted
  | forgottenFileKey :: rest =>
      deleted' ← processForgotten_body processor forgottenFileKey deleted;
      processForgotten_loop processor rest deleted'
  end.

Definition processForgotten (processor : Processor rt) : Async W nat :=
  forgottenFiles ← getForgottenList;
  if bool_decide (length forgottenFiles = 0%nat) then mret 0%nat
  else
    shuffled ← sync (fisherYattesShuffleInPlace forgottenFiles);
    processForgotten_loop processor shuffled 0.

(** *** The polled licence value *)

(** Modelled from the spec: [PolledThingieValue] of
    [@/lib/polled-thingie-value] is not among the sources.  The spec gives
    it a label, a producer, a period, the last successfully produced value
    (absent at first) and the time of the last successful refresh.  Each
    refresh invokes the producer; on success the value and the time are
    replaced together, on failure both are kept and nothing is thrown.
    [latest] reads the value. *)
Record PolledThingieValue (T : Type) := {
  label : string;
  producer : Async W T;
  period : Z;
  lastValue : option T;
  lastRefresh : option Z
}.
Arguments label {T} _.
Arguments producer {T} _.
Arguments period {T} _.
Arguments lastValue {T} _.
Arguments lastRefresh {T} _.

(** Modelled from the spec: the constructor; nothing is cached yet. *)
Definition new_PolledThingieValue {T} (label : string) (producer : Async W T)
    (period : Z) : PolledThingieValue T :=
  {| label := label; producer := producer; period := period;
     lastValue := None; lastRefresh := None |}.

(** Modelled from the spec: [latest()] returns the most recently produced
    value, or the absent marker. *)
Definition latest {T} (p : PolledThingieValue T) : option T := lastValue p.

(** Modelled from the spec: one refresh of the loop. *)
Definition refresh {T} (p : PolledThingieValue T) (w : W) : PolledThingieValue T * W :=
  let r := producer p w in
  match outcome r with
  | inr value =>
      ({| label := label p; producer := producer p; period := period p;
          lastValue := Some value;
          lastRefresh := Some (Date_now rt (world_after r)) |},
       world_after r)
  | inl _ => (p, world_after r)
  end.

Record OnlyOfficeService := { poller : PolledThingieValue (ResponseData License.Response) }.

Definition new_OnlyOfficeService : OnlyOfficeService :=
  {| poller :=
       new_PolledThingieValue "Connect to Only Office" getLicense
         (onlyOfficeConnectivityCheckPeriodMS rt) |}.

Definition getLatestLicence (service : OnlyOfficeService) :
    option (ResponseData License.Response) :=
  latest (poller service).

(** The refresh loop never ends; between two refreshes the rest of the
    process and the server move on.  A state of the loop is the poller, the
    world, and (for the proofs) what the producer has given so far. *)
Definition Polling (T : Type) : Type :=
  PolledThingieValue T * W * list (Failure + T).

(** Modelled from the spec: the steps of the refresh loop. *)
Inductive poll_step {T} : relation (Polling T) :=
  | poll_refresh p w history :
      poll_step (p, w, history)
                ((refresh p w).1, (refresh p w).2, history ++ [outcome (producer p w)])
  | poll_elsewhere p w w' history :
      poll_step (p, w, history) (p, w', history).

(** The value of the last successful run of the producer, if any. *)
Definition last_success {T} (history : list (Failure + T)) : option T :=
  last (omap (λ o, match o with inl _ => None | inr value => Some value end) history).

(** *** What a call that failed throws *)

Definition event_failure (e : Event) : option Failure :=
  match e with
  | Posted req (NoResponse reason) => Some (TransportFailure reason)
  | Posted req (Responded error raw) =>
      if bool_decide (error = ErrorCode_value SUCCESS) then None
      else Some (CommandFailure
                   {| errorCode := error;
                      message := CommandError_message error (JSON_stringify_request rt req) raw |})
  | Processed _ _ (inl reason) => Some (ProcessorFailure reason)
  | Processed _ _ (inr _) => None
  end.

(** *** The traces of a pass *)

(** An event that threw nothing. *)
Definition quiet (e : Event) : Prop := event_failure e = None.

(** The order in which a pass works through the fetched keys. *)
Definition shuffled_order (keys : list string) (w : W) : list string :=
  (fisherYattesShuffleInPlace keys (world_after (getForgottenList w))).1.

Section Traces.
Context (processor : Processor rt).

(** [res] is something the processor can answer for this key and URL. *)
Definition answers (key url : string) (res : string + bool) : Prop :=
  ∃ w, (processor key url w).1 = res.

(** The traces of one iteration of the loop, with its result: the new count,
    or what was thrown. *)
Inductive body_trace (key : string) (deleted : nat) : list Event → Failure + nat → Prop :=
  | body_fetch_failed res f :
      event_failure (Posted (GetForgotten_Request key) res) = Some f →
      body_trace key deleted [Posted (GetForgotten_Request key) res] (inl f)
  | body_processor_failed raw url reason :
      answers key url (inl reason) →
      body_trace key deleted
        [Posted (GetForgotten_Request key) (Responded 0 raw);
         Processed key url (inl reason)]
        (inl (ProcessorFailure reason))
  | body_refused raw url :
      answers key url (inr false) →
      body_trace key deleted
        [Posted (GetForgotten_Request key) (Responded 0 raw);
         Processed key url (inr false)]
        (inr deleted)
  | body_delete_failed raw url res f :
      answers key url (inr true) →
      event_failure (Posted (DeleteForgotten_Request key) res) = Some f →
      body_trace key deleted
        [Posted (GetForgotten_Request key) (Responded 0 raw);
         Processed key url (inr true);
         Posted (DeleteForgotten_Request key) res]
        (inl f)
  | body_deleted raw url raw' :
      answers key url (inr true) →
      body_trace key deleted
        [Posted (GetForgotten_Request key) (Responded 0 raw);
         Processed key url (inr true);
         Posted (DeleteForgotten_Request key) (Responded 0 raw')]
        (inr (S deleted)).

(** An event is one the pass can issue on [key]. *)
Definition event_on (key : string) (e : Event) : Prop :=
  match e with
  | Posted req _ => req = GetForgotten_Request key ∨ req = DeleteForgotten_Request key
  | Processed key' url res => key' = key ∧ answers key url res
  end.

(** The traces of the whole loop over [keys], started with a count. *)
Inductive loop_trace : list string → nat → list Event → Failure + nat → Prop :=
  | loop_done deleted : loop_trace [] deleted [] (inr deleted)
  | loop_abort key rest deleted tr f :
      body_trace key deleted tr (inl f) →
      loop_trace (key :: rest) deleted tr (inl f)
  | loop_next key rest deleted deleted' tr tr' o :
      body_trace key deleted tr (inr deleted') →
      loop_trace rest deleted' tr' o →
      loop_trace (key :: rest) deleted (tr ++ tr') o.

End Traces.

(** *** Scripts for the refresh loop *)

Section Ticks.
Context {T : Type}.

(** What happens next to the loop: it refreshes, or the world moves on. *)
Inductive Tick :=
  | Refresh
  | Elsewhere (w : World rt).

Definition poll_tick (st : Polling T) (t : Tick) : Polling T :=
  match t with
  | Refresh =>
      ((refresh st.1.1 st.1.2).1, (refresh st.1.1 st.1.2).2,
       st.2 ++ [outcome (producer st.1.1 st.1.2)])
  | Elsewhere w' => (st.1.1, w', st.2)
  end.

Definition poll_ticks (st : Polling T) (script : list Tick) : Polling T :=
  foldl poll_tick st script.

End Ticks.

End Service.

Arguments label {rt T} _.
Arguments producer {rt T} _.
Arguments period {rt T} _.
Arguments lastValue {rt T} _.
Arguments lastRefresh {rt T} _.

(** ** Reading a trace *)

Definition fetch_of (e : Event) : option string :=
  match e with Posted (GetForgotten_Request key) _ => Some key | _ => None end.

Definition processed_of (e : Event) : option string :=
  match e with Processed key _ _ => Some key | _ => None end.

Definition approved_of (e : Event) : option string :=
  match e with Processed key _ (inr true) => Some key | _ => None end.

Definition refused_of (e : Event) : option string :=
  match e with Processed key _ (inr false) => Some key | _ => None end.

Definition delete_call_of (e : Event) : option string :=
  match e with Posted (DeleteForgotten_Request key) _ => Some key | _ => None end.

Definition deleted_of (e : Event) : option string :=
  match e with
  | Posted (DeleteForgotten_Request key) (Responded 0 _) => Some key
  | _ => None
  end.

(** Keys whose URL was requested, keys handed to the processor, keys for
    which it answered true or false, keys a delete call was issued for, and
    keys the server confirmed as deleted; each in the order of the calls. *)
Definition url_fetches (tr : list Event) : list string := omap fetch_of tr.
Definition processor_calls (tr : list Event) : list string := omap processed_of tr.
Definition approved (tr : list Event) : list string := omap approved_of tr.
Definition refused (tr : list Event) : list string := omap refused_of tr.
Definition delete_calls (tr : list Event) : list string := omap delete_call_of tr.
Definition deleted_keys (tr : list Event) : list string := omap deleted_of tr.

(** The number of times a key occurs in a list of keys. *)
Definition occurrences (key : string) (l : list string) : nat :=
  length (filter (λ k, k = key) l).

(** ** Counting the outcomes of the shuffle *)

(** The draw vectors the shuffle can receive when it starts at index [i]:
    the draw made at an index is at most that index. *)
Fixpoint all_draws (i : nat) : list (list nat) :=
  match i with
  | O => [[]]
  | S i' => seq 0 (S i) ≫= λ j, (j ::.) <$> all_draws i'
  end.

(** In how many ways the draws can turn [l] into [p]. *)
Definition ways {A} `{EqDecision A} (i : nat) (l p : list A) : nat :=
  length (filter (λ draws, shuffle_with i draws l = p) (all_draws i)).

(** The number of rearrangements of the positions of [l] that leave [l] as it
    is: the product of the factorials of the multiplicities. *)
Fixpoint arrangements {A} `{EqDecision A} (l : list A) : nat :=
  match l with
  | [] => 1
  | x :: l' => S (length (filter (λ y, y = x) l')) * arrangements l'
  end.

(** ** A small server to run the service against *)

Module Mock.

Record Server := {
  forgotten : list string;   (* the keys the server lists as forgotten *)
  answers : nat;             (* requests it still answers before the connection drops *)
  dice : list nat;           (* what the random source will give *)
  clock : Z
}.

Fixpoint remove_first (key : string) (l : list string) : list string :=
  match l with
  | [] => []
  | x :: rest => if bool_decide (x = key) then rest else x :: remove_first key rest
  end.

Definition respond (req : Request) (held : list string) :
    ResponseData (TSuccessResponse req) * list string :=
  match req as r return ResponseData (TSuccessResponse r) * list string with
  | Version_Request =>
      ({| error := 0; fields := {| Version.version := "8.2.0" |} |}, held)
  | ForceSave_Request key _ =>
      ({| error := 4; fields := {| ForceSave.key := key |} |}, held)
  | GetForgotten_Request key =>
      if bool_decide (key ∈ held)
      then ({| error := 0;
               fields := {| GetForgotten.key := key;
                            GetForgotten.url := "https://docs.example/forgotten/" +:+ key |} |},
            held)
      else ({| error := 1;
               fields := {| GetForgotten.key := key; GetForgotten.url := "" |} |}, held)
  | GetForgottenList_Request =>
      ({| error := 0; fields := {| GetForgottenList.keys := held |} |}, held)
  | DeleteForgotten_Request key =>
      if bool_decide (key ∈ held)
      then ({| error := 0; fields := {| DeleteForgotten.key := key |} |},
            remove_first key held)
      else ({| error := 1; fields := {| DeleteForgotten.key := key |} |}, held)
  | License_Request =>
      ({| error := 0;
          fields := {| License.license := JSObject [("end_date", JSString "2030-01-01")];
                       License.server := JSObject [("buildVersion", JSString "8.2.0")];
                       License.quota := JSObject [] |} |}, held)
  end.

Definition post (req : Request) (s : Server) :
    (string + ResponseData (TSuccessResponse req)) * Server :=
  match answers s with
  | O => (inl "ECONNREFUSED", s)
  | S n =>
      let (data, held) := respond req (forgotten s) in
      (inr data,
       {| forgotten := held; answers := n; dice := dice s; clock := (clock s + 1)%Z |})
  end.

Definition random_below (bound : nat) (s : Server) : nat * Server :=
  match dice s with
  | [] => (O, s)
  | d :: rest =>
      (d mod bound,
       {| forgotten := forgotten s; answers := answers s; dice := rest; clock := clock s |})
  end.

Definition runtime : Runtime :=
  {| World := Server;
     axios_post := post;
     Math_random_below := random_below;
     Date_now := clock;
     onlyOfficeConnectivityCheckPeriodMS := 10000;
     JSON_stringify_request := c;
     JSON_stringify_response := λ _ data, pretty (error data) |}.

(** A processor that decides by the key alone and leaves the world alone. *)
Definition decide_by (keep : string → bool) : Processor runtime :=
  λ key _ s, (inr (keep key), s).

Definition server (held : list string) (answers : nat) (dice : list nat) : Server :=
  {| forgotten := held; answers := answers; dice := dice; clock := 0 |}.

End Mock.

(** ** Scenarios *)

(** The spec's scenario: the server lists a, b and c, and the processor
    accepts a and c. *)
Definition keep_a_and_c (key : string) : bool := negb (bool_decide (key = "b")).

Definition scenario : Mock.Server := Mock.server ["a"; "b"; "c"] 10 [2; 0].

(** The server of the scenario drops the connection after four answers. *)
Definition outage : Mock.Server := Mock.server ["a"; "b"; "c"] 4 [0; 1].

(** A server that lists the same key twice. *)
Definition twice : Mock.Server := Mock.server ["a"; "a"] 10 [0].

Definition forcesave_reply : ResponseData ForceSave.Response :=
  {| error := 4; fields := {| ForceSave.key := "k1" |} |}.

(** The licence is polled once while the server answers, the server then goes
    away, and the licence is polled again. *)
Definition polled_twice : Polling Mock.runtime (ResponseData License.Response) :=
  poll_ticks Mock.runtime
    (poller Mock.runtime (new_OnlyOfficeService Mock.runtime), Mock.server [] 5 [], [])
    [Refresh Mock.runtime; Elsewhere Mock.runtime (Mock.server [] 0 []); Refresh Mock.runtime].


(** A processor that decides by the key and leaves its mark on the world:
    every call of it moves the clock by a hundred. *)
Definition stamps_and_decides (keep : string → bool) : Processor Mock.runtime :=
  λ key _ s,
    (inr (keep key),
     {| Mock.forgotten := Mock.forgotten s; Mock.answers := Mock.answers s;
        Mock.dice := Mock.dice s; Mock.clock := (Mock.clock s + 100)%Z |}).

(** ** The events of a pass as calls really made *)

Section Calls.
Context (rt : Runtime) (processor : Processor rt).

(** What is recorded of a request: what the transport gave for it. *)
Definition post_result (req : Request)
    (result : string + ResponseData (TSuccessResponse req)) : PostResult :=
  match result with
  | inl reason => NoResponse reason
  | inr data => Responded (error data) (JSON_stringify_response rt req data)
  end.

(** [replay w tr w']: starting in the world [w], the events [tr] are, one
    after the other, a request handed to the transport or a call of the
    processor, each recorded with what it gave in the world it was made in,
    each made in the world the one before left, and [w'] is the world the
    last one left.  Nothing else has touched the world on the way. *)
Inductive replay : World rt → list Event → World rt → Prop :=
  | replay_done w : replay w [] w
  | replay_post w req tr w' :
      replay (axios_post rt req w).2 tr w' →
      replay w (Posted req (post_result req (axios_post rt req w).1) :: tr) w'
  | replay_processed w key url tr w' :
      replay (processor key url w).2 tr w' →
      replay w (Processed key url (processor key url w).1 :: tr) w'.

(** A computation whose events are the calls it made, in any world. *)
Definition logged {A} (m : Async (World rt) A) : Prop :=
  ∀ w, replay w (events (m w)) (world_after (m w)).

(** The events [tr] of a pass started in [w] are the calls it made, and [w']
    is the world it left: the list request was handed to the transport in
    [w] and answered with [keys]; the shuffle of [keys] drew from the world
    that request left; and from there on the events replay, up to [w']. *)
Definition calls_made (w : World rt) (keys : list string) (tr : list Event)
    (w' : World rt) : Prop :=
  ∃ data later,
    (axios_post rt GetForgottenList_Request w).1 = inr data
    ∧ error data = ErrorCode_value SUCCESS
    ∧ GetForgottenList.keys (fields data) = keys
    ∧ tr = Posted GetForgottenList_Request
             (post_result GetForgottenList_Request (axios_post rt GetForgottenList_Request w).1)
           :: later
    ∧ replay
        (fisherYattesShuffleInPlace rt keys (axios_post rt GetForgottenList_Request w).2).2
        later w'.

End Calls.

(** A processor that cannot store b and says so by throwing. *)
Definition stores_all_but_b : Processor Mock.runtime :=
  λ key _ s, (if bool_decide (key = "b") then inl "storage unavailable" else inr true, s).

(** ** The methods as single requests *)

(** The requests a trace posted, in order. *)
Definition request_of (e : Event) : option Request :=
  match e with Posted req _ => Some req | Processed _ _ _ => None end.

Definition requests (tr : list Event) : list Request := omap request_of tr.

Section Contract.
Context (rt : Runtime).

(** What it is for a method to post [req] once and hand back [field] of the
    successful response: whatever the transport does with the request, the
    method does nothing else. *)
Definition posts_once {A} (method : Async (World rt) A) (req : Request)
    (field : ResponseData (TSuccessResponse req) → A) : Prop :=
  ∀ w,
    method w =
      match axios_post rt req w with
      | (inl reason, w') =>
          {| outcome := inl (TransportFailure reason); world_after := w';
             events := [Posted req (NoResponse reason)] |}
      | (inr data, w') =>
          {| outcome :=
               if bool_decide (error data = ErrorCode_value SUCCESS) then inr (field data)
               else inl (CommandFailure (new_CommandError rt (error data) req data));
             world_after := w';
             events := [Posted req (Responded (error data) (JSON_stringify_response rt req data))] |}
      end.

End Contract.

(** * The Emojione component

    A shallow embedding of
    [twake/frontend/src/app/components/emojione/emojione.tsx]: what the
    component renders, as a value, and what it does to its cache. *)

Module Emojione.

(** [Props].  [type] is [None] when the prop holds no string (the component
    tests [typeof props.type]); an optional prop is [None] when it is
    missing.  Sizes are whole numbers of pixels. *)
Record Props := {
  type : option string;
  size : option Z;
  className : option string;
  s64 : option bool;
  s128 : option bool;
  emoji : option string
}.

(** What the component takes from elsewhere: the two functions of the
    emojione library it calls, the lookup of emoji-mart (with its set and
    data fixed), the URL helper, and the module-level object [type_to_uni]
    with its reads and writes.  A read gives the value when it is truthy. *)
Record Env := {
  Uni : Type;
  Cache : Type;
  cache_get : Cache → string → option Uni;
  cache_set : Cache → string → option Uni → Cache;
  emojione_toImage : string → string;
  emojione_shortnameToUnicode : string → string;
  getEmojiDataFromNative : string → option Uni;
  getAsFrontUrl : string → string
}.

(** [a || b] on an optional string: the empty string is falsy. *)
Definition or_string (a : option string) (b : string) : string :=
  match a with
  | Some EmptyString | None => b
  | Some s => s
  end.

(** [a || n] on an optional number: 0 is falsy. *)
Definition or_number (a : option Z) (n : Z) : Z :=
  match a with
  | Some 0%Z | None => n
  | Some k => k
  end.

Definition truthy (flag : option bool) : bool :=
  match flag with Some true => true | _ => false end.

(** [s.replace(pattern, replacement)] for a string pattern and a replacement
    without dollar signs: the first occurrence is replaced. *)
Fixpoint replace_first (pattern replacement s : string) : string :=
  if String.prefix pattern s
  then replacement +:+ String.substring (String.length pattern)
                         (String.length s - String.length pattern) s
  else match s with
       | EmptyString => EmptyString
       | String a s' => String a (replace_first pattern replacement s')
       end.

(** [s.replace(/:/g, '')] *)
Fixpoint remove_colons (s : string) : string :=
  match s with
  | EmptyString => EmptyString
  | String a s' =>
      if bool_decide (String a EmptyString = ":") then remove_colons s'
      else String a (remove_colons s')
  end.

(** The type is a link. *)
Definition is_link (t : string) : Prop :=
  (∃ rest, t = "http://" +:+ rest) ∨ (∃ rest, t = "https://" +:+ rest).

(** The size of the sprite sheet that [backgroundImageFn] settles on. *)
Definition sheet_size (size : Z) : Z :=
  if bool_decide (size ∈ [16; 20; 32; 64]%Z) then size else 64%Z.

Section Component.
Context (env : Env).

(** What is rendered. *)
Inductive Element :=
  | Fragment
  | Icon (type className : string)
  (** [<i className=... style={{ backgroundImage: ... }} />] *)
  | ImageTag (className backgroundImage : string)
  (** [<i className=... dangerouslySetInnerHTML={{ __html: ... }} />] *)
  | HtmlTag (className html : string)
  (** [<EmojioneFallback {...props} />] *)
  | Fallback (props : Props)
  (** [<span className=...><Emoji ... /></span>] with the props of [Emoji] *)
  | EmojiSpan (className : string) (emoji : Uni env + string) (set : string) (size : Z)
      (backgroundImageFn : string → string) (fallback : Props).

Definition getFromEmojione (props : Props) : string :=
  let html := emojione_toImage env (or_string (type props) (or_string (emoji props) "")) in
  let html :=
    replace_first "https://cdn.jsdelivr.net/emojione/assets/3.1/png/" "/public/emojione/" html in
  if truthy (s64 props) then replace_first "/32/" "/64/" html
  else if truthy (s128 props) then replace_first "/32/" "/128/" html
  else html.

(** [EmojioneFallback.render] *)
Definition EmojioneFallback_render (props : Props) : Element :=
  HtmlTag "emoji-container " (getFromEmojione props).

(** The function given to [Emoji] as [backgroundImageFn].  Its first call
    sets the variable [size] to 64 unless it is one of the four sheet sizes,
    so every call answers with the same sheet. *)
Definition backgroundImageFn (size : Z) (set : string) : string :=
  getAsFrontUrl env
    ("/public/emoji-datasource/" +:+ set +:+ "/sheets-256/"
     +:+ pretty (sheet_size size) +:+ ".png").

(** The component, with the cache it reads and the cache it leaves. *)
Definition Emojione (props : Props) (type_to_uni : Cache env) : Element * Cache env :=
  match type props with
  | None => (Fragment, type_to_uni)
  | Some t =>
      if bool_decide (t = "trash") then (Icon "trash" "trash_emoji", type_to_uni)
      else if bool_decide (String.substring 0 7 t = ":tdrive-") then
        (ImageTag ("emojione emoji-image " +:+ or_string (className props) "")
           ("url('/public/img/tdrive-emoji/" +:+ remove_colons t +:+ ".png')"),
         type_to_uni)
      else if bool_decide (String.substring 0 7 t = "http://")
              || bool_decide (String.substring 0 8 t = "https://") then
        (ImageTag ("emojione emoji-image " +:+ or_string (className props) "")
           ("url('" +:+ t +:+ "')"),
         type_to_uni)
      else
        let size := or_number (size props) 16 in
        if bool_decide (32 < size)%Z || truthy (s64 props) || truthy (s128 props) then
          (Fallback props, type_to_uni)
        else
          let uni :=
            match cache_get env type_to_uni t with
            | Some u => Some u
            | None => getEmojiDataFromNative env (emojione_shortnameToUnicode env t)
            end in
          (EmojiSpan ("emoji-container emoji-text " +:+ or_string (className props) "")
             (match uni with Some u => inl u | None => inr t end)
             "apple" size (backgroundImageFn size) props,
           cache_set env type_to_uni t uni)
  end.

End Component.

(** Libraries to try the component with: an image tag on the CDN, no
    shortname known, an association list for the cache. *)
Definition plain : Env :=
  {| Uni := string;
     Cache := list (string * option string);
     cache_get := λ cache k,
       match list_find (λ entry, entry.1 = k) cache with
       | Some (_, (_, value)) => value
       | None => None
       end;
     cache_set := λ cache k value, (k, value) :: cache;
     emojione_toImage := λ shortname,
       "<img src='https://cdn.jsdelivr.net/emojione/assets/3.1/png/32/"
       +:+ shortname +:+ ".png'/>";
     emojione_shortnameToUnicode := λ shortname, shortname;
     getEmojiDataFromNative := λ _, None;
     getAsFrontUrl := λ path, path |}.

Definition props_of (t : string) (size : option Z) : Props :=
  {| type := Some t; size := size; className := None; s64 := None; s128 := None;
     emoji := None |}.

End Emojione.

(** * Properties *)

(** ** The label of an error code *)

Lemma ErrorCode_value_inj c1 c2 : ErrorCode_value c1 = ErrorCode_value c2 → c1 = c2.
Proof. by destruct c1, c2. Qed.

Lemma ErrorCodeFromValue_member code :
  ErrorCodeFromValue (ErrorCode_value code) = ErrorCode_name code.
Proof. by destruct code. Qed.

Lemma enum_object_no_key value (members : list ErrorCode) :
  Forall (λ code, ErrorCode_value code ≠ value) members →
  filter (λ entry : string * EnumSlot, entry.2 = SlotNumber value)
    (map (λ c, (pretty (ErrorCode_value c), SlotString (ErrorCode_name c))) members
     ++ map (λ c, (ErrorCode_name c, SlotNumber (ErrorCode_value c))) members) = [].
Proof.
  intros Hall. rewrite filter_app. apply app_nil. split.
  - clear Hall. induction members as [|code rest IH]; [done|].
    simpl. rewrite filter_cons. by rewrite decide_False.
  - induction Hall as [|code rest Hcode _ IH]; [done|].
    simpl. rewrite filter_cons. rewrite decide_False; [done|].
    simpl. by intros [=].
Qed.

Lemma ErrorCodeFromValue_other value :
  (∀ code, ErrorCode_value code ≠ value) →
  ErrorCodeFromValue value = unrecognized_description "OnlyOffice.ErrorCode" value.
Proof.
  intros Hother. unfold ErrorCodeFromValue, getKeyForValueSafe, ErrorCode_object.
  rewrite enum_object_no_key; [done|]. apply Forall_forall; auto.
Qed.

Lemma unrecognized_description_not_a_name ctxMsg value code :
  unrecognized_description ctxMsg value ≠ ErrorCode_name code.
Proof. by destruct code. Qed.

(** ** The shuffle *)

Lemma swap_Permutation {A} i j (l : list A) : swap i j l ≡ₚ l.
Proof.
  unfold swap. destruct (l !! i) as [x|] eqn:Hi; [|done].
  destruct (l !! j) as [y|] eqn:Hj; [|done].
  by apply Permutation_insert_swap.
Qed.

Lemma swap_length {A} i j (l : list A) : length (swap i j l) = length l.
Proof. apply Permutation_length, swap_Permutation. Qed.

Lemma shuffle_with_Permutation {A} i draws (l : list A) : shuffle_with i draws l ≡ₚ l.
Proof.
  revert draws l. induction i as [|i IH]; intros [|j draws] l; simpl; try done.
  by rewrite IH, swap_Permutation.
Qed.

Lemma shuffle_from_draws rt {A} i (l : list A) (w : World rt) :
  (shuffle_from rt i l w).1 = shuffle_with i (draws_from rt i w) l.
Proof.
  revert l w. induction i as [|i IH]; intros l w; simpl; [done|].
  destruct (Math_random_below rt (S (S i)) w) as [j w']. apply IH.
Qed.

Lemma fisherYattesShuffleInPlace_Permutation rt {A} (l : list A) (w : World rt) :
  (fisherYattesShuffleInPlace rt l w).1 ≡ₚ l.
Proof.
  unfold fisherYattesShuffleInPlace. rewrite shuffle_from_draws.
  apply shuffle_with_Permutation.
Qed.

(** ** Every order is as likely as any other *)

Section Uniform.
Context {A : Type} `{EqDecision A}.

Implicit Types (l p m : list A).

Lemma arrangements_Permutation l1 l2 : l1 ≡ₚ l2 → arrangements l1 = arrangements l2.
Proof.
  induction 1 as [|x l1 l2 Hperm IH|x y l|l1 l2 l3 _ IH1 _ IH2]; simpl.
  - done.
  - by rewrite IH, Hperm.
  - rewrite !filter_cons. repeat case_decide; simplify_eq; simpl; lia.
  - congruence.
Qed.

Lemma filter_none {B} (P : B → Prop) `{∀ x, Decision (P x)} (l : list B) :
  Forall (λ x, ¬ P x) l → filter P l = [].
Proof. induction 1 as [|x l Hx _ IH]; [done|]. by rewrite filter_cons, decide_False. Qed.

Lemma filter_agree {B} (P Q : B → Prop) `{∀ x, Decision (P x)} `{∀ x, Decision (Q x)}
    (l : list B) :
  Forall (λ x, P x ↔ Q x) l → filter P l = filter Q l.
Proof.
  induction 1 as [|x l Hx _ IH]; [done|]. rewrite !filter_cons, IH.
  by repeat case_decide; try tauto.
Qed.

Lemma sum_list_with_agree {B} (f g : B → nat) (l : list B) :
  Forall (λ x, f x = g x) l → sum_list_with f l = sum_list_with g l.
Proof. induction 1 as [|x l Hx _ IH]; simpl; [done|]. by rewrite Hx, IH. Qed.

Lemma arrangements_NoDup l : NoDup l → arrangements l = 1.
Proof.
  induction 1 as [|x l Hx _ IH]; simpl; [done|]. rewrite IH.
  rewrite filter_none; [done|]. apply Forall_forall. by intros y Hy ->.
Qed.

Lemma arrangements_pos l : 0 < arrangements l.
Proof. induction l as [|x l IH]; simpl; lia. Qed.

Lemma all_draws_length i : length (all_draws i) = fact (S i).
Proof.
  induction i as [|i IH]; [done|].
  change (all_draws (S i)) with (seq 0 (S (S i)) ≫= λ j, (j ::.) <$> all_draws i).
  assert (∀ js : list nat,
            length (js ≫= λ j, (j ::.) <$> all_draws i) = length js * fact (S i)) as Hlen.
  { induction js as [|j js IHjs]; [done|].
    rewrite bind_cons, length_app, length_fmap, IHjs, IH. simpl. lia. }
  rewrite Hlen, length_seq. change (fact (S (S i))) with (S (S i) * fact (S i)). done.
Qed.

Lemma all_draws_valid i draws :
  draws ∈ all_draws (S i) ↔ ∃ j rest, draws = j :: rest ∧ j ≤ S i ∧ rest ∈ all_draws i.
Proof.
  change (all_draws (S i)) with (seq 0 (S (S i)) ≫= λ j, (j ::.) <$> all_draws i).
  rewrite list_elem_of_bind. split.
  - intros (j & (rest & -> & Hrest)%list_elem_of_fmap & Hj%elem_of_seq).
    exists j, rest. split_and!; [done|lia|done].
  - intros (j & rest & -> & Hj & Hrest). exists j. split.
    + apply list_elem_of_fmap. by exists rest.
    + apply elem_of_seq. lia.
Qed.

(** The draw at an index exchanges two elements at or below that index, so
    what lies above is left alone. *)
Lemma swap_app i j m (s : list A) :
  i < length m → j < length m → swap i j (m ++ s) = swap i j m ++ s.
Proof.
  intros Hi Hj. unfold swap. rewrite !lookup_app_l by done.
  destruct (lookup_lt_is_Some_2 m i Hi) as [x ->].
  destruct (lookup_lt_is_Some_2 m j Hj) as [y ->].
  rewrite !insert_app_l; [done|by rewrite length_insert|done].
Qed.

Lemma shuffle_with_app i draws m (s : list A) :
  i < length m → draws ∈ all_draws i →
  shuffle_with i draws (m ++ s) = shuffle_with i draws m ++ s.
Proof.
  revert draws m. induction i as [|i IH]; intros draws m Hi Hdraws.
  { by destruct draws. }
  apply all_draws_valid in Hdraws as (j & rest & -> & Hj & Hrest). simpl.
  rewrite swap_app by lia. apply IH; [|done]. rewrite swap_length. lia.
Qed.

(** After the first draw [j] the element that was at [j] is last. *)
Lemma swap_last n j l :
  length l = S n → j ≤ n →
  ∃ m y, l !! j = Some y ∧ swap n j l = m ++ [y] ∧ length m = n.
Proof.
  intros Hlen Hj.
  destruct (lookup_lt_is_Some_2 l n) as [x Hx]; [lia|].
  destruct (lookup_lt_is_Some_2 l j) as [y Hy]; [lia|].
  assert (swap n j l !! n = Some y) as Hlast.
  { unfold swap. rewrite Hx, Hy. apply list_lookup_insert_eq. rewrite length_insert. lia. }
  exists (take n (swap n j l)), y. split_and!; [done| |].
  - rewrite <-(take_drop_middle _ _ _ Hlast) at 1.
    rewrite (drop_ge _ (S n)); [done|]. rewrite swap_length. lia.
  - rewrite length_take, swap_length. lia.
Qed.

Lemma ways_S i l p :
  ways (S i) l p = sum_list_with (λ j, ways i (swap (S i) j l) p) (seq 0 (S (S i))).
Proof.
  unfold ways.
  change (all_draws (S i)) with (seq 0 (S (S i)) ≫= λ j, (j ::.) <$> all_draws i).
  generalize (seq 0 (S (S i))) as js.
  induction js as [|j js IH]; [done|].
  rewrite bind_cons, filter_app, length_app, IH. simpl. f_equal.
  generalize (all_draws i) as ds. induction ds as [|d ds IHds]; [done|].
  rewrite fmap_cons, !filter_cons. simpl.
  destruct (decide (shuffle_with i d (swap (S i) j l) = p)); simpl; by rewrite IHds.
Qed.

(** With the last element out of reach, the draws must rearrange the others. *)
Lemma ways_snoc i m y pp z :
  length m = S i →
  ways i (m ++ [y]) (pp ++ [z]) = if decide (y = z) then ways i m pp else 0.
Proof.
  intros Hlen. unfold ways.
  rewrite (filter_agree _ (λ draws, shuffle_with i draws m = pp ∧ y = z)).
  - case_decide as Hyz.
    + f_equal. apply list_filter_iff. tauto.
    + rewrite filter_none; [done|]. apply Forall_forall. tauto.
  - apply Forall_forall. intros draws Hdraws.
    rewrite shuffle_with_app by (done || lia). apply app_inj_tail_iff.
Qed.

(** Summing over the positions of a list is summing over its elements. *)
Lemma sum_over_positions (f : A → nat) l :
  sum_list_with (λ j, from_option f 0 (l !! j)) (seq 0 (length l)) = sum_list_with f l.
Proof.
  induction l as [|x l IH]; [done|]. simpl. f_equal.
  rewrite <-fmap_S_seq, <-IH. generalize (seq 0 (length l)) as js.
  induction js as [|j js IHjs]; csimpl; [done|]. by rewrite IHjs.
Qed.

Lemma sum_matching z (c : nat) l :
  sum_list_with (λ y, if decide (y = z) then c else 0) l
  = length (filter (λ y, y = z) l) * c.
Proof.
  induction l as [|x l IH]; [done|]. simpl. rewrite filter_cons, IH.
  case_decide; simpl; lia.
Qed.

Lemma ways_arrangements i l p :
  length l = S i → l ≡ₚ p → ways i l p = arrangements p.
Proof.
  revert l p. induction i as [|i IH]; intros l p Hlen Hperm.
  { destruct l as [|x [|??]]; simplify_eq/=.
    apply Permutation_singleton_l in Hperm. subst p. unfold ways. simpl.
    rewrite filter_cons, decide_True by done. done. }
  assert (length p = S (S i)) as Hlenp by (by rewrite <-Hperm).
  destruct p as [|z pp _] using rev_ind; [done|].
  rewrite ways_S.
  rewrite (sum_list_with_agree _
             (λ j, from_option (λ y, if decide (y = z) then arrangements pp else 0) 0 (l !! j))).
  - rewrite <-Hlen, sum_over_positions, sum_matching.
    rewrite (arrangements_Permutation (pp ++ [z]) (z :: pp))
      by (symmetry; apply Permutation_cons_append).
    simpl. f_equal.
    assert (filter (λ y, y = z) l ≡ₚ filter (λ y, y = z) (z :: pp)) as Hf.
    { rewrite Hperm. f_equiv. symmetry. apply Permutation_cons_append. }
    rewrite Hf, filter_cons, decide_True by done. done.
  - apply Forall_forall. intros j Hj%elem_of_seq.
    destruct (swap_last (S i) j l) as (m & y & Hy & Hswap & Hm); [done|lia|].
    rewrite Hswap, Hy, ways_snoc by done. simpl.
    case_decide as Hyz; [|done]. subst y. apply IH; [done|].
    apply (Permutation_app_inv_r [z]). rewrite <-Hswap, swap_Permutation. done.
Qed.

Lemma ways_not_Permutation i l p : ¬ l ≡ₚ p → ways i l p = 0.
Proof.
  intros Hnot. unfold ways. rewrite filter_none; [done|].
  apply Forall_forall. intros draws _ Heq. apply Hnot.
  by rewrite <-Heq, shuffle_with_Permutation.
Qed.

(** The count for the shuffle of a whole list, the empty one included. *)
Lemma ways_whole_list l p :
  l ≡ₚ p → ways (length l - 1) l p = arrangements l.
Proof.
  intros Hperm. rewrite (arrangements_Permutation l p Hperm).
  destruct l as [|x l].
  - apply Permutation_nil_l in Hperm. by subst p.
  - apply ways_arrangements; [|done]. simpl. lia.
Qed.

End Uniform.

Lemma all_draws_whole_list {A} (l : list A) :
  length (all_draws (length l - 1)) = fact (length l).
Proof.
  rewrite all_draws_length. destruct l as [|x l]; [done|].
  simpl length. by rewrite Nat.sub_succ, Nat.sub_0_r.
Qed.

(** A random source that stays below its bound hands the shuffle one of the
    draw vectors counted above. *)
Lemma draws_from_valid rt i (w : World rt) :
  (∀ bound w', (Math_random_below rt (S bound) w').1 ≤ bound) →
  draws_from rt i w ∈ all_draws i.
Proof.
  intros Hbelow. revert w. induction i as [|i IH]; intros w; simpl draws_from.
  { constructor. }
  pose proof (Hbelow (S i) w) as Hj.
  destruct (Math_random_below rt (S (S i)) w) as [j w']. simpl in Hj.
  apply all_draws_valid. exists j, (draws_from rt i w'). split_and!; [done|done|apply IH].
Qed.

(** ** Runs of the commands *)

Section Runs.
Context (rt : Runtime).

Implicit Types (w : World rt) (req : Request) (tr : list Event).

(** [post] in one piece: what comes back for each answer of the transport. *)
Lemma post_run req w :
  post rt req w =
    let (result, w') := axios_post rt req w in
    match result with
    | inl reason =>
        {| outcome := inl (TransportFailure reason); world_after := w';
           events := [Posted req (NoResponse reason)] |}
    | inr data =>
        {| outcome :=
             if bool_decide (error data = ErrorCode_value SUCCESS) then inr data
             else inl (CommandFailure (new_CommandError rt (error data) req data));
           world_after := w';
           events := [Posted req (Responded (error data) (JSON_stringify_response rt req data))] |}
    end.
Proof.
  unfold post, mbind, Async_bind, await, postUnsafe.
  destruct (axios_post rt req w) as [[reason|data] w']; simpl; [done|].
  by case_bool_decide.
Qed.

Lemma then_run {A B} (m : Async (World rt) A) (f : A → B) w :
  then_ m f w =
    {| outcome := match outcome (m w) with inl e => inl e | inr a => inr (f a) end;
       world_after := world_after (m w);
       events := events (m w) |}.
Proof.
  unfold then_, mbind, Async_bind, await, resolve.
  destruct (outcome (m w)); simpl; [done|]. by rewrite app_nil_r.
Qed.

(** The only event of a [post], and how its outcome reads off it. *)
Lemma post_event req w :
  ∃ res, events (post rt req w) = [Posted req res]
    ∧ match outcome (post rt req w) with
      | inl f => event_failure rt (Posted req res) = Some f
      | inr data => res = Responded 0 (JSON_stringify_response rt req data)
                    ∧ error data = 0%Z
      end.
Proof.
  rewrite post_run. destruct (axios_post rt req w) as [[reason|data] w']; simpl.
  - by eexists.
  - eexists; split; [done|]. case_bool_decide as Herr; simpl.
    + by rewrite Herr.
    + by rewrite bool_decide_eq_false_2.
Qed.

Lemma then_post_event {B} req (f : ResponseData (TSuccessResponse req) → B) w :
  ∃ res, events (then_ (post rt req) f w) = [Posted req res]
    ∧ match outcome (then_ (post rt req) f w) with
      | inl e => event_failure rt (Posted req res) = Some e
      | inr _ => ∃ raw, res = Responded 0 raw
      end.
Proof.
  rewrite then_run; simpl. destruct (post_event req w) as (res & -> & Hout).
  exists res; split; [done|]. destruct (outcome (post rt req w)); [done|].
  destruct Hout as [-> _]. by eexists.
Qed.

Lemma bind_run {A B} (m : Async (World rt) A) (k : A → Async (World rt) B) w :
  (m ≫= k) w =
    match outcome (m w) with
    | inl f => {| outcome := inl f; world_after := world_after (m w); events := events (m w) |}
    | inr a =>
        {| outcome := outcome (k a (world_after (m w)));
           world_after := world_after (k a (world_after (m w)));
           events := events (m w) ++ events (k a (world_after (m w))) |}
    end.
Proof. reflexivity. Qed.

Lemma getForgottenList_event w :
  ∃ res, events (getForgottenList rt w) = [Posted GetForgottenList_Request res]
    ∧ match outcome (getForgottenList rt w) with
      | inl e => event_failure rt (Posted GetForgottenList_Request res) = Some e
      | inr _ => ∃ raw, res = Responded 0 raw
      end.
Proof. apply then_post_event. Qed.

Lemma getForgotten_event key w :
  ∃ res, events (getForgotten rt key w) = [Posted (GetForgotten_Request key) res]
    ∧ match outcome (getForgotten rt key w) with
      | inl e => event_failure rt (Posted (GetForgotten_Request key) res) = Some e
      | inr _ => ∃ raw, res = Responded 0 raw
      end.
Proof. apply then_post_event. Qed.

Lemma deleteForgotten_event key w :
  ∃ res, events (deleteForgotten rt key w) = [Posted (DeleteForgotten_Request key) res]
    ∧ match outcome (deleteForgotten rt key w) with
      | inl e => event_failure rt (Posted (DeleteForgotten_Request key) res) = Some e
      | inr _ => ∃ raw, res = Responded 0 raw
      end.
Proof. apply then_post_event. Qed.

(** ** One pass over the forgotten keys *)

Section Pass.
Context (processor : Processor rt).

Lemma processForgotten_body_trace key deleted w :
  let r := processForgotten_body rt processor key deleted w in
  body_trace rt processor key deleted (events r) (outcome r).
Proof.
  unfold processForgotten_body. rewrite bind_run.
  destruct (getForgotten_event key w) as (res & Hev & Hout).
  destruct (getForgotten rt key w) as [[f|url] w1 ev]; simpl in Hev, Hout; subst ev;
    cbn [outcome events world_after].
  { by constructor. }
  destruct Hout as [raw ->]. rewrite bind_run. unfold call_processor.
  destruct (processor key url w1) as [[reason|[|]] w2] eqn:Hproc;
    cbn [outcome events world_after].
  - constructor. exists w1. by rewrite Hproc.
  - rewrite bind_run.
    destruct (deleteForgotten_event key w2) as (res & Hev & Hout).
    destruct (deleteForgotten rt key w2) as [[f|?] w3 ev]; simpl in Hev, Hout; subst ev;
      cbn [outcome events world_after].
    + apply body_delete_failed; [|done]. exists w1. by rewrite Hproc.
    + destruct Hout as [raw' ->]. apply body_deleted. exists w1. by rewrite Hproc.
  - apply body_refused. exists w1. by rewrite Hproc.
Qed.

Lemma processForgotten_loop_trace keys deleted w :
  let r := processForgotten_loop rt processor keys deleted w in
  loop_trace rt processor keys deleted (events r) (outcome r).
Proof.
  revert deleted w. induction keys as [|key rest IH]; intros deleted w; simpl.
  { constructor. }
  rewrite bind_run.
  pose proof (processForgotten_body_trace key deleted w) as Hbody.
  destruct (processForgotten_body rt processor key deleted w) as [[f|deleted'] w1 ev];
    cbn [outcome events world_after] in *.
  - by apply loop_abort.
  - eapply loop_next; [done|]. apply IH.
Qed.

(** *** What the traces say *)

Lemma quiet_success req raw : quiet rt (Posted req (Responded 0 raw)).
Proof. done. Qed.

Lemma failed_delete_not_confirmed key res f :
  event_failure rt (Posted (DeleteForgotten_Request key) res) = Some f →
  deleted_of (Posted (DeleteForgotten_Request key) res) = None.
Proof. by destruct res as [|[] ?]. Qed.

Lemma body_trace_events key deleted tr o :
  body_trace rt processor key deleted tr o → Forall (event_on rt processor key) tr.
Proof. destruct 1; repeat apply Forall_cons_2; try apply Forall_nil_2; simpl; auto. Qed.


Lemma body_trace_url_fetches key deleted tr o :
  body_trace rt processor key deleted tr o → url_fetches tr = [key].
Proof. by destruct 1. Qed.

Lemma body_trace_returned key deleted tr deleted' :
  body_trace rt processor key deleted tr (inr deleted') →
  processor_calls tr = [key]
  ∧ deleted_keys tr = approved tr
  ∧ deleted' = (deleted + length (approved tr))%nat
  ∧ Forall (quiet rt) tr
  ∧ (approved tr = [key] ∧ refused tr = [] ∨ approved tr = [] ∧ refused tr = [key]).
Proof.
  inversion 1; subst; simpl; (split_and!; [done|done|lia| |auto]);
    repeat constructor.
Qed.

Lemma body_trace_thrown key deleted tr f :
  body_trace rt processor key deleted tr (inl f) →
  deleted_keys tr = []
  ∧ processor_calls tr `prefix_of` [key]
  ∧ ∃ tr' e, tr = tr' ++ [e] ∧ Forall (quiet rt) tr' ∧ event_failure rt e = Some f.
Proof.
  inversion 1 as [res ? Hf|raw url reason|?|raw url res ? ? Hf|?]; subst.
  - split_and!; [|by eexists [_]|by exists [], (Posted (GetForgotten_Request key) res)].
    by destruct res as [|[] ?].
  - split_and!; [done|done|].
    by exists [Posted (GetForgotten_Request key) (Responded 0 raw)],
              (Processed key url (inl reason)); repeat constructor.
  - split_and!; [|done|].
    + revert Hf. by destruct res as [|[] ?].
    + by exists [Posted (GetForgotten_Request key) (Responded 0 raw);
                 Processed key url (inr true)],
                (Posted (DeleteForgotten_Request key) res); repeat constructor.
Qed.

Lemma loop_trace_events keys deleted tr o :
  loop_trace rt processor keys deleted tr o →
  Forall (λ e, ∃ key, key ∈ keys ∧ event_on rt processor key e) tr.
Proof.
  induction 1 as [|key rest deleted tr f Hbody|key rest deleted deleted' tr tr' o Hbody _ IH].
  - constructor.
  - eapply Forall_impl; [by eapply body_trace_events|].
    intros e He. exists key. split; [left|done].
  - apply Forall_app. split.
    + eapply Forall_impl; [by eapply body_trace_events|].
      intros e He. exists key. split; [left|done].
    + eapply Forall_impl; [exact IH|]. intros e (k & Hk & He). exists k. split; [by right|done].
Qed.


Lemma loop_trace_returned keys deleted tr n :
  loop_trace rt processor keys deleted tr (inr n) →
  url_fetches tr = keys
  ∧ processor_calls tr = keys
  ∧ deleted_keys tr = approved tr
  ∧ n = (deleted + length (approved tr))%nat
  ∧ Forall (quiet rt) tr
  ∧ approved tr ++ refused tr ≡ₚ keys
  ∧ (refused tr = [] → approved tr = keys)
  ∧ (approved tr = [] → refused tr = keys)
  ∧ approved tr `sublist_of` keys.
Proof.
  remember (inr n) as o eqn:Ho. intros Hloop. revert n Ho.
  induction Hloop as [| |key rest deleted deleted' tr tr' o Hbody _ IH]; intros n Ho;
    simplify_eq.
  { split_and!; try done; simpl; lia. }
  destruct (IH n eq_refl) as (Hf & Hp & Hd & Hn & Hq & Hperm & Hall & Hnone & Hsub).
  destruct (body_trace_returned _ _ _ _ Hbody) as (Hp' & Hd' & Hn' & Hq' & Hcase).
  pose proof (body_trace_url_fetches _ _ _ _ Hbody) as Hf'.
  unfold url_fetches, processor_calls, deleted_keys, approved, refused in *.
  rewrite !omap_app, Hf, Hf', Hp, Hp', Hd, Hd', length_app.
  split_and!; [done|done|done|lia|by apply Forall_app|..].
  - destruct Hcase as [[-> ->]|[-> ->]]; simpl.
    + by rewrite Hperm.
    + by rewrite <-Hperm, Permutation_middle.
  - destruct Hcase as [[-> ->]|[-> ->]]; simpl; [|done]. intros ?. f_equal. auto.
  - destruct Hcase as [[-> ->]|[-> ->]]; simpl; [done|]. intros ?. f_equal. auto.
  - destruct Hcase as [[-> _]|[-> _]]; simpl; by constructor.
Qed.

(** A pass that throws has completed the iterations of the keys before the
    one it was working on. *)
Lemma loop_trace_thrown keys deleted tr f :
  loop_trace rt processor keys deleted tr (inl f) →
  ∃ visited key rest done aborted deleted',
    keys = visited ++ key :: rest
    ∧ tr = done ++ aborted
    ∧ loop_trace rt processor visited deleted done (inr deleted')
    ∧ body_trace rt processor key deleted' aborted (inl f).
Proof.
  remember (inl f) as o eqn:Ho. intros Hloop. revert Ho.
  induction Hloop as [|key rest deleted tr f' Hbody|key rest deleted deleted' tr tr' o Hbody _ IH];
    intros Ho; simplify_eq.
  - exists [], key, rest, [], tr, deleted. split_and!; [done|done|constructor|done].
  - destruct (IH eq_refl) as (visited & key' & rest' & done & aborted & d & -> & -> & Hdone & Hab).
    exists (key :: visited), key', rest', (tr ++ done), aborted, d.
    split_and!; [done|by rewrite app_assoc| |done].
    by eapply loop_next.
Qed.

(** The event that threw is the last one, and no earlier event threw. *)
Lemma loop_trace_last keys deleted tr f :
  loop_trace rt processor keys deleted tr (inl f) →
  ∃ tr' e, tr = tr' ++ [e] ∧ Forall (quiet rt) tr' ∧ event_failure rt e = Some f.
Proof.
  intros (visited & key & rest & done & aborted & d & -> & -> & Hdone & Hab)%loop_trace_thrown.
  destruct (body_trace_thrown _ _ _ _ Hab) as (_ & _ & tr' & e & -> & Hq & He).
  exists (done ++ tr'), e. split_and!; [by rewrite app_assoc| |done].
  apply Forall_app. split; [|done]. by apply loop_trace_returned in Hdone as (_&_&_&_&?&_).
Qed.

Lemma omap_all_None {A B} (f : A → option B) (l : list A) :
  Forall (λ x, f x = None) l → omap f l = [].
Proof. induction 1 as [|x l Hx _ IH]; simpl; [done|]. by rewrite Hx. Qed.



Lemma loop_trace_prefix keys deleted tr o :
  loop_trace rt processor keys deleted tr o →
  url_fetches tr `prefix_of` keys ∧ processor_calls tr `prefix_of` url_fetches tr.
Proof.
  destruct o as [f|n]; intros Hloop.
  - apply loop_trace_thrown
      in Hloop as (visited & key & rest & done & aborted & d & -> & -> & Hdone & Hab).
    apply loop_trace_returned in Hdone as (Hf & Hp & _).
    pose proof (body_trace_url_fetches _ _ _ _ Hab) as Hf'.
    apply body_trace_thrown in Hab as (_ & Hp' & _).
    unfold url_fetches, processor_calls in *. rewrite !omap_app, Hf, Hf', Hp. split.
    + exists rest. by rewrite <-app_assoc.
    + by apply prefix_app.
  - apply loop_trace_returned in Hloop as (-> & -> & _). done.
Qed.

(** *** The whole of [processForgotten] *)

Lemma processForgotten_run w :
  processForgotten rt processor w =
    let r0 := getForgottenList rt w in
    match outcome r0 with
    | inl f => {| outcome := inl f; world_after := world_after r0; events := events r0 |}
    | inr keys =>
        if bool_decide (length keys = 0%nat)
        then {| outcome := inr 0%nat; world_after := world_after r0; events := events r0 |}
        else
          let order := fisherYattesShuffleInPlace rt keys (world_after r0) in
          let r := processForgotten_loop rt processor order.1 0 order.2 in
          {| outcome := outcome r; world_after := world_after r;
             events := events r0 ++ events r |}
    end.
Proof.
  unfold processForgotten. rewrite bind_run. cbv zeta.
  destruct (getForgottenList rt w) as [[f|keys] w0 ev0]; cbn [outcome events world_after];
    [done|].
  case_bool_decide.
  { unfold mret, Async_ret, resolve. simpl. by rewrite app_nil_r. }
  rewrite bind_run. unfold sync.
  by destruct (fisherYattesShuffleInPlace rt keys w0) as [shuffled w1].
Qed.

Lemma processForgotten_trace w keys :
  outcome (getForgottenList rt w) = inr keys →
  ∃ raw tr,
    events (getForgottenList rt w) = [Posted GetForgottenList_Request (Responded 0 raw)]
    ∧ events (processForgotten rt processor w)
      = Posted GetForgottenList_Request (Responded 0 raw) :: tr
    ∧ loop_trace rt processor (shuffled_order rt keys w) 0 tr (outcome (processForgotten rt processor w)).
Proof.
  intros Hkeys. rewrite processForgotten_run. unfold shuffled_order. cbv zeta.
  destruct (getForgottenList_event w) as (res & Hev & Hout).
  rewrite Hkeys in Hout |- *. destruct Hout as [raw ->]. rewrite Hev.
  exists raw. case_bool_decide as Hlen.
  - apply nil_length_inv in Hlen as ->. exists []. split_and!; [done..|]. constructor.
  - eexists. split_and!; [done|done|]. apply processForgotten_loop_trace.
Qed.

Lemma processForgotten_list_failed w f :
  outcome (getForgottenList rt w) = inl f →
  ∃ res,
    event_failure rt (Posted GetForgottenList_Request res) = Some f
    ∧ outcome (processForgotten rt processor w) = inl f
    ∧ events (processForgotten rt processor w) = [Posted GetForgottenList_Request res].
Proof.
  intros Hlist. rewrite processForgotten_run. cbv zeta.
  destruct (getForgottenList_event w) as (res & Hev & Hout).
  rewrite Hlist in Hout |- *. by exists res.
Qed.

End Pass.

End Runs.

Lemma occurrences_Permutation key l1 l2 :
  l1 ≡ₚ l2 → occurrences key l1 = occurrences key l2.
Proof. intros Hperm. unfold occurrences. by rewrite Hperm. Qed.

Lemma occurrences_sublist key l1 l2 :
  l1 `sublist_of` l2 → (occurrences key l1 ≤ occurrences key l2)%nat.
Proof.
  unfold occurrences. induction 1 as [|x l1 l2 _ IH|x l1 l2 _ IH]; [done|..];
    rewrite ?filter_cons; repeat case_decide; simpl; lia.
Qed.

(** ** The polled value *)

Section Polled.
Context (rt : Runtime) {T : Type}.

Implicit Types (p : PolledThingieValue rt T) (w : World rt) (history : list (Failure + T)).

Lemma poll_ticks_steps (st : Polling rt T) script :
  rtc (poll_step rt) st (poll_ticks rt st script).
Proof.
  revert st. induction script as [|t script IH]; intros [[p w] history]; simpl; [done|].
  eapply rtc_l; [|apply IH]. destruct t; constructor.
Qed.

Lemma refresh_latest p w :
  latest rt (refresh rt p w).1
  = match outcome (producer p w) with
    | inl _ => latest rt p
    | inr value => Some value
    end.
Proof. unfold refresh. by destruct (outcome (producer p w)). Qed.

Lemma refresh_failed p w f :
  outcome (producer p w) = inl f → (refresh rt p w).1 = p.
Proof. unfold refresh. by intros ->. Qed.

Lemma refresh_producer p w : producer (refresh rt p w).1 = producer p.
Proof. unfold refresh. by destruct (outcome (producer p w)). Qed.

Lemma last_success_snoc history (o : Failure + T) :
  last_success (history ++ [o])
  = match o with inl _ => last_success history | inr value => Some value end.
Proof.
  unfold last_success. rewrite omap_app. destruct o; simpl.
  - by rewrite app_nil_r.
  - by rewrite last_snoc.
Qed.

Lemma last_success_failures history :
  Forall (λ o, ∃ f, o = inl f) history → last_success history = None.
Proof.
  intros Hall. unfold last_success. rewrite omap_all_None; [done|].
  eapply Forall_impl; [exact Hall|]. by intros o [f ->].
Qed.

Lemma last_success_then_failures history value later :
  Forall (λ o, ∃ f, o = inl f) later →
  last_success (history ++ inr value :: later) = Some value.
Proof.
  intros Hall. unfold last_success. rewrite omap_app. simpl.
  rewrite (omap_all_None _ later); [by rewrite last_snoc|].
  eapply Forall_impl; [exact Hall|]. by intros o [f ->].
Qed.

(** The loop keeps its producer, and the cached value is the last value the
    producer gave. *)
Lemma poll_step_invariant (st st' : Polling rt T) :
  rtc (poll_step rt) st st' →
  latest rt st.1.1 = last_success st.2 →
  latest rt st'.1.1 = last_success st'.2 ∧ producer st'.1.1 = producer st.1.1.
Proof.
  induction 1 as [st|st1 st2 st3 Hstep _ IH]; intros Hinv; [done|].
  destruct Hstep as [p w history|p w w' history]; simpl in *.
  - destruct IH as [IH1 IH2].
    + rewrite refresh_latest, last_success_snoc.
      by destruct (outcome (producer p w)).
    + split; [done|]. by rewrite IH2, refresh_producer.
  - by apply IH.
Qed.

End Polled.

(** ** The events are the calls *)

Section Logged.
Context (rt : Runtime) (processor : Processor rt).

Implicit Types (w : World rt) (tr : list Event).

Lemma replay_app w tr1 w1 tr2 w2 :
  replay rt processor w tr1 w1 → replay rt processor w1 tr2 w2 →
  replay rt processor w (tr1 ++ tr2) w2.
Proof. induction 1; simpl; [done|constructor; auto..]. Qed.

Lemma logged_ret {A} (a : A) : logged rt processor (mret a).
Proof. intros w. constructor. Qed.

Lemma logged_bind {A B} (m : Async (World rt) A) (k : A → Async (World rt) B) :
  logged rt processor m → (∀ a, logged rt processor (k a)) → logged rt processor (m ≫= k).
Proof.
  intros Hm Hk w. rewrite bind_run. specialize (Hm w).
  destruct (outcome (m w)) as [f|a]; simpl; [done|].
  eapply replay_app; [done|apply Hk].
Qed.

Lemma logged_post req : logged rt processor (post rt req).
Proof.
  intros w. rewrite post_run.
  pose proof (replay_post rt processor w req [] _ (replay_done rt processor _)) as Hcall.
  by destruct (axios_post rt req w) as [[reason|data] w'].
Qed.

Lemma logged_then {A B} (m : Async (World rt) A) (f : A → B) :
  logged rt processor m → logged rt processor (then_ m f).
Proof. intros Hm w. rewrite then_run. apply Hm. Qed.

Lemma logged_call_processor key url : logged rt processor (call_processor rt processor key url).
Proof.
  intros w. unfold call_processor.
  pose proof (replay_processed rt processor w key url [] _ (replay_done rt processor _))
    as Hcall.
  by destruct (processor key url w) as [result w'].
Qed.

Lemma logged_body key deleted : logged rt processor (processForgotten_body rt processor key deleted).
Proof.
  unfold processForgotten_body.
  apply logged_bind; [apply logged_then, logged_post|]. intros url.
  apply logged_bind; [apply logged_call_processor|]. intros [|]; [|apply logged_ret].
  apply logged_bind; [apply logged_then, logged_post|]. intros _. apply logged_ret.
Qed.

Lemma logged_loop keys deleted : logged rt processor (processForgotten_loop rt processor keys deleted).
Proof.
  revert deleted. induction keys as [|key rest IH]; intros deleted; simpl.
  - apply logged_ret.
  - apply logged_bind; [apply logged_body|]. intros deleted'. apply IH.
Qed.

Lemma shuffle_nothing {A} (l : list A) w :
  length l = 0%nat → (fisherYattesShuffleInPlace rt l w).2 = w.
Proof. intros Hlen. unfold fisherYattesShuffleInPlace. by rewrite Hlen. Qed.

Lemma processForgotten_calls_made w keys :
  outcome (getForgottenList rt w) = inr keys →
  calls_made rt processor w keys
    (events (processForgotten rt processor w))
    (world_after (processForgotten rt processor w)).
Proof.
  rewrite processForgotten_run. cbv zeta. unfold getForgottenList.
  rewrite then_run, post_run. unfold calls_made.
  destruct (axios_post rt GetForgottenList_Request w) as [[reason|data] w0];
    cbn [outcome events world_after fst snd]; [done|].
  case_bool_decide as Herr; [|done]. intros [= <-].
  exists data. case_bool_decide as Hlen.
  - exists []. split_and!; [done..|].
    rewrite shuffle_nothing by exact Hlen. constructor.
  - eexists. split_and!; [done..|]. apply logged_loop.
Qed.

End Logged.

(** * The properties the specification states *)

(** ** Error codes and [post] *)

(** C1: whenever the transport delivers a response whose [error] field is a
    member of [ErrorCode], [post] returns that response exactly when the code
    is [SUCCESS]; for every other member it throws a [CommandError] whose
    [errorCode] is that very code (and whose message names the member). *)
Theorem post_returns_iff_SUCCESS (rt : Runtime) (req : Request) (w w' : World rt)
    (data : ResponseData (TSuccessResponse req)) (code : ErrorCode) :
  axios_post rt req w = (inr data, w') →
  error data = ErrorCode_value code →
  (outcome (post rt req w) = inr data ↔ code = SUCCESS)
  ∧ (code ≠ SUCCESS →
     ∃ e, outcome (post rt req w) = inl (CommandFailure e)
       ∧ errorCode e = ErrorCode_value code
       ∧ message e =
           CommandError_message (ErrorCode_value code)
             (JSON_stringify_request rt req) (JSON_stringify_response rt req data)
       ∧ ErrorCodeFromValue (errorCode e) = ErrorCode_name code).
Proof.
  intros Hpost Hcode. rewrite post_run, Hpost. simpl. rewrite Hcode. split.
  - case_bool_decide as Hc.
    + apply (ErrorCode_value_inj code SUCCESS) in Hc. done.
    + split; [done|]. intros ->. done.
  - intros Hne. rewrite bool_decide_eq_false_2.
    + eexists. split_and!; [done|done|done|]. apply ErrorCodeFromValue_member.
    + intros Hc. by apply (ErrorCode_value_inj code SUCCESS) in Hc.
Qed.

(** A force-save answered with code 4 is thrown as a [CommandError] with that code. *)
Lemma post_forcesave_without_changes :
  axios_post Mock.runtime (ForceSave_Request "k1" "") (Mock.server [] 3 [])
    = (inr forcesave_reply,
       {| Mock.forgotten := []; Mock.answers := 2; Mock.dice := []; Mock.clock := 1 |})
  ∧ error forcesave_reply = ErrorCode_value FORCE_SAVE_BUT_NO_CHANGES_TO_APPLY
  ∧ ∃ e, outcome (post Mock.runtime (ForceSave_Request "k1" "") (Mock.server [] 3 []))
           = inl (CommandFailure e)
       ∧ errorCode e = 4%Z.
Proof.
  split; [reflexivity|]. split; [reflexivity|].
  destruct (post_returns_iff_SUCCESS Mock.runtime (ForceSave_Request "k1" "")
              (Mock.server [] 3 []) _ forcesave_reply FORCE_SAVE_BUT_NO_CHANGES_TO_APPLY
              eq_refl eq_refl) as [_ Hthrown].
  destruct Hthrown as (e & He & Hcode & _); [discriminate|].
  exists e. split; [exact He|exact Hcode].
Defined.

(** C8: for an integer that is the value of no member of [ErrorCode], the
    label resolver returns the fallback description for that integer (never
    the name of a member), and a [CommandError] built on that code carries
    the code and a message made with the fallback label. *)
Theorem ErrorCodeFromValue_unrecognized (rt : Runtime) (value : Z) :
  (∀ code, ErrorCode_value code ≠ value) →
  ErrorCodeFromValue value = unrecognized_description "OnlyOffice.ErrorCode" value
  ∧ (∀ code, ErrorCodeFromValue value ≠ ErrorCode_name code)
  ∧ ∀ req res,
      errorCode (new_CommandError rt value req res) = value
      ∧ message (new_CommandError rt value req res)
        = "OnlyOffice command service error "
          +:+ unrecognized_description "OnlyOffice.ErrorCode" value
          +:+ " (" +:+ pretty value +:+ "): Requested " +:+ JSON_stringify_request rt req
          +:+ " got " +:+ JSON_stringify_response rt req res.
Proof.
  intros Hother. pose proof (ErrorCodeFromValue_other value Hother) as Hlabel.
  split_and!; [done| |].
  - intros code. rewrite Hlabel. apply unrecognized_description_not_a_name.
  - intros req res. split; [done|]. simpl. unfold CommandError_message. by rewrite Hlabel.
Qed.

(** 9 is no member of the enumeration. *)
Lemma ErrorCodeFromValue_of_nine :
  (∀ code, ErrorCode_value code ≠ 9%Z)
  ∧ ErrorCodeFromValue 9 = "Unrecognized OnlyOffice.ErrorCode value: 9".
Proof.
  assert (∀ code, ErrorCode_value code ≠ 9%Z) as Hother by (intros []; discriminate).
  split; [exact Hother|].
  exact (proj1 (ErrorCodeFromValue_unrecognized Mock.runtime 9 Hother)).
Defined.

(** ** The forgotten-document pass *)

(** C5: when the list of forgotten keys comes back empty, [processForgotten]
    returns 0 at once: the run is that of the list request alone (same world
    afterwards, so no draw and no call of the processor either), and its only
    event is that request. *)
Theorem processForgotten_empty_list (rt : Runtime) (processor : Processor rt) (w : World rt) :
  outcome (getForgottenList rt w) = inr [] →
  processForgotten rt processor w
    = {| outcome := inr 0%nat;
         world_after := world_after (getForgottenList rt w);
         events := events (getForgottenList rt w) |}
  ∧ (∃ raw, events (processForgotten rt processor w)
            = [Posted GetForgottenList_Request (Responded 0 raw)])
  ∧ url_fetches (events (processForgotten rt processor w)) = []
  ∧ processor_calls (events (processForgotten rt processor w)) = []
  ∧ delete_calls (events (processForgotten rt processor w)) = [].
Proof.
  intros Hempty.
  assert (processForgotten rt processor w
          = {| outcome := inr 0%nat;
               world_after := world_after (getForgottenList rt w);
               events := events (getForgottenList rt w) |}) as Hrun.
  { rewrite processForgotten_run. cbv zeta. by rewrite Hempty. }
  destruct (getForgottenList_event rt w) as (res & Hev & Hout).
  rewrite Hempty in Hout. destruct Hout as [raw ->].
  rewrite Hrun. cbn [events]. rewrite Hev. split_and!; try done. by exists raw.
Qed.

(** A server that holds no forgotten document. *)
Lemma processForgotten_nothing_forgotten :
  outcome (getForgottenList Mock.runtime (Mock.server [] 5 [1; 2])) = inr []
  ∧ processForgotten Mock.runtime (Mock.decide_by keep_a_and_c) (Mock.server [] 5 [1; 2])
    = {| outcome := inr 0%nat;
         world_after :=
           world_after (getForgottenList Mock.runtime (Mock.server [] 5 [1; 2]));
         events := events (getForgottenList Mock.runtime (Mock.server [] 5 [1; 2])) |}.
Proof.
  split; [reflexivity|].
  exact (proj1 (processForgotten_empty_list Mock.runtime (Mock.decide_by keep_a_and_c)
                  (Mock.server [] 5 [1; 2]) eq_refl)).
Defined.



(** C3: if any request of the pass (the list request, a URL request or a
    delete request) meets a transport failure or an error code, then the pass
    returns no count: it throws that very failure, the failed request is the
    last thing it did, and when it is the list request it is the only thing
    it did, so nothing was deleted. *)
Theorem processForgotten_aborts_on_failure (rt : Runtime) (processor : Processor rt)
    (w : World rt) (req : Request) (res : PostResult) (f : Failure) :
  Posted req res ∈ events (processForgotten rt processor w) →
  event_failure rt (Posted req res) = Some f →
  outcome (processForgotten rt processor w) = inl f
  ∧ last (events (processForgotten rt processor w)) = Some (Posted req res)
  ∧ ((∃ reason, res = NoResponse reason ∧ f = TransportFailure reason)
     ∨ (∃ code raw e, res = Responded code raw ∧ code ≠ 0%Z
                      ∧ f = CommandFailure e ∧ errorCode e = code))
  ∧ (req = GetForgottenList_Request →
     events (processForgotten rt processor w) = [Posted req res]
     ∧ delete_calls (events (processForgotten rt processor w)) = []).
Proof.
  intros Hin Hfail.
  assert ((∃ reason, res = NoResponse reason ∧ f = TransportFailure reason)
          ∨ (∃ code raw e, res = Responded code raw ∧ code ≠ 0%Z
                           ∧ f = CommandFailure e ∧ errorCode e = code)) as Hkind.
  { destruct res as [reason|code raw]; simpl in Hfail.
    - left. exists reason. by simplify_eq.
    - right. case_bool_decide as Hcode; simplify_eq. by eexists _, _, _. }
  destruct (outcome (getForgottenList rt w)) as [f0|keys] eqn:Hlist.
  - destruct (processForgotten_list_failed rt processor w f0 Hlist) as (res0 & Hf0 & Hout & Hev).
    rewrite Hev in Hin |- *. apply list_elem_of_singleton in Hin. simplify_eq.
    split_and!; [by rewrite Hout|done|done|done].
  - destruct (processForgotten_trace rt processor w keys Hlist) as (raw & tr & _ & Hev & Hloop).
    rewrite Hev in Hin |- *. apply elem_of_cons in Hin as [Hin|Hin]; [by simplify_eq|].
    pose proof (loop_trace_events _ _ _ _ _ _ Hloop) as Hevents.
    destruct (outcome (processForgotten rt processor w)) as [f'|n].
    + apply loop_trace_last in Hloop as (tr' & e & -> & Hquiet & He).
      apply elem_of_app in Hin as [Hin|Hin].
      { rewrite Forall_forall in Hquiet. apply Hquiet in Hin. unfold quiet in Hin. congruence. }
      apply list_elem_of_singleton in Hin. subst e.
      split_and!; [congruence| |done|].
      * by rewrite app_comm_cons, last_snoc.
      * intros ->. rewrite Forall_forall in Hevents.
        destruct (Hevents (Posted GetForgottenList_Request res)) as (k & _ & [?|?]);
          [apply elem_of_app; right; constructor|done..].
    + apply loop_trace_returned in Hloop as (_ & _ & _ & _ & Hquiet & _).
      rewrite Forall_forall in Hquiet. apply Hquiet in Hin. unfold quiet in Hin. congruence.
Qed.

(** The connection drops at the third URL request: the pass throws there. *)
Lemma processForgotten_outage :
  Posted (GetForgotten_Request "a") (NoResponse "ECONNREFUSED")
    ∈ events (processForgotten Mock.runtime (Mock.decide_by keep_a_and_c) outage)
  ∧ event_failure Mock.runtime (Posted (GetForgotten_Request "a") (NoResponse "ECONNREFUSED"))
    = Some (TransportFailure "ECONNREFUSED")
  ∧ outcome (processForgotten Mock.runtime (Mock.decide_by keep_a_and_c) outage)
    = inl (TransportFailure "ECONNREFUSED")
  ∧ last (events (processForgotten Mock.runtime (Mock.decide_by keep_a_and_c) outage))
    = Some (Posted (GetForgotten_Request "a") (NoResponse "ECONNREFUSED")).
Proof.
  assert (Posted (GetForgotten_Request "a") (NoResponse "ECONNREFUSED")
            ∈ events (processForgotten Mock.runtime (Mock.decide_by keep_a_and_c) outage))
    as Hin by (vm_compute; repeat constructor).
  split; [exact Hin|]. split; [reflexivity|].
  destruct (processForgotten_aborts_on_failure Mock.runtime (Mock.decide_by keep_a_and_c)
              outage _ _ _ Hin eq_refl) as (Hout & Hlast & _).
  split; [exact Hout|exact Hlast].
Defined.





(** C4: within one call every element of the fetched list is visited at
    most once and never again.  The events of the call are the calls it made:
    every URL request was handed to the transport and every processor event
    is a call of the processor, each in the world the call before left, and
    nothing else touched the world.  The URL requests follow the shuffled
    order, a permutation of the fetched list, as far as the call gets, and
    the processor is invoked once for each of them (the last one excepted
    when its URL request failed).  When the call returns, every element has
    had exactly one URL request and exactly one processor invocation,
    whatever the shuffled order.  Elements are occurrences: no key is visited
    more often than it is listed, and none twice when none is listed twice. *)
Theorem processForgotten_visits_each_element_once (rt : Runtime) (processor : Processor rt)
    (w : World rt) (keys : list string) :
  outcome (getForgottenList rt w) = inr keys →
  ∃ tr,
    tr = events (processForgotten rt processor w)
    ∧ calls_made rt processor w keys tr (world_after (processForgotten rt processor w))
    ∧ shuffled_order rt keys w ≡ₚ keys
    ∧ url_fetches tr `prefix_of` shuffled_order rt keys w
    ∧ processor_calls tr `prefix_of` url_fetches tr
    ∧ (∀ n, outcome (processForgotten rt processor w) = inr n →
         url_fetches tr = shuffled_order rt keys w
         ∧ processor_calls tr = shuffled_order rt keys w)
    ∧ (∀ key, occurrences key (url_fetches tr) ≤ occurrences key keys)%nat
    ∧ (NoDup keys → NoDup (url_fetches tr) ∧ NoDup (processor_calls tr)).
Proof.
  intros Hkeys.
  destruct (processForgotten_trace rt processor w keys Hkeys) as (raw & tr & _ & Hev & Hloop).
  pose proof (fisherYattesShuffleInPlace_Permutation rt keys
                (world_after (getForgottenList rt w))) as Hshuffle.
  fold (shuffled_order rt keys w) in Hshuffle.
  pose proof (loop_trace_prefix _ _ _ _ _ _ Hloop) as [Hfetch Hproc].
  exists (events (processForgotten rt processor w)). split; [done|].
  split; [by apply processForgotten_calls_made|]. rewrite Hev.
  change (url_fetches (_ :: tr)) with (url_fetches tr).
  change (processor_calls (_ :: tr)) with (processor_calls tr).
  assert (url_fetches tr `sublist_of` shuffled_order rt keys w) as Hsub.
  { destruct Hfetch as [k ->]. by apply sublist_inserts_r. }
  split_and!; [done..| | |].
  - intros n Hn. rewrite Hn in Hloop. by apply loop_trace_returned in Hloop as (? & ? & _).
  - intros key. rewrite <-(occurrences_Permutation key _ _ Hshuffle).
    by apply occurrences_sublist.
  - intros Hnodup. rewrite <-Hshuffle in Hnodup.
    assert (NoDup (url_fetches tr)) as Hnd by (by eapply sublist_NoDup).
    split; [done|]. eapply sublist_NoDup; [exact Hnd|].
    destruct Hproc as [k ->]. by apply sublist_inserts_r.
Qed.

(** The scenario again, with a processor that leaves its mark: the three
    keys are visited in the shuffled order, and the world shows the six
    requests and the three calls of the processor. *)
Lemma processForgotten_scenario_order :
  outcome (getForgottenList Mock.runtime scenario) = inr ["a"; "b"; "c"]
  ∧ shuffled_order Mock.runtime ["a"; "b"; "c"] scenario ≡ₚ ["a"; "b"; "c"]
  ∧ url_fetches
      (events (processForgotten Mock.runtime (stamps_and_decides keep_a_and_c) scenario))
      `prefix_of` shuffled_order Mock.runtime ["a"; "b"; "c"] scenario
  ∧ url_fetches
      (events (processForgotten Mock.runtime (stamps_and_decides keep_a_and_c) scenario))
    = ["b"; "a"; "c"]
  ∧ processor_calls
      (events (processForgotten Mock.runtime (stamps_and_decides keep_a_and_c) scenario))
    = ["b"; "a"; "c"]
  ∧ world_after (processForgotten Mock.runtime (stamps_and_decides keep_a_and_c) scenario)
    = {| Mock.forgotten := ["b"]; Mock.answers := 4; Mock.dice := []; Mock.clock := 306 |}.
Proof.
  split; [reflexivity|].
  destruct (processForgotten_visits_each_element_once Mock.runtime
              (stamps_and_decides keep_a_and_c) scenario ["a"; "b"; "c"] eq_refl)
    as (tr & -> & _ & Hperm & Hprefix & _).
  split; [exact Hperm|]. split; [exact Hprefix|]. split_and!; reflexivity.
Defined.

(** A key that the server lists twice is two elements of the list: it is
    visited once for each. *)
Example key_listed_twice_is_visited_twice :
  outcome (getForgottenList Mock.runtime twice) = inr ["a"; "a"]
  ∧ url_fetches (events (processForgotten Mock.runtime (Mock.decide_by (λ _, false)) twice))
    = ["a"; "a"]
  ∧ processor_calls (events (processForgotten Mock.runtime (Mock.decide_by (λ _, false)) twice))
    = ["a"; "a"]
  ∧ ¬ NoDup (url_fetches
               (events (processForgotten Mock.runtime (Mock.decide_by (λ _, false)) twice))).
Proof.
  split_and!; [reflexivity..|].
  vm_compute. intros Hnodup. apply NoDup_cons in Hnodup as [Hnotin _].
  apply Hnotin. constructor.
Qed.

(** ** The polled licence *)

(** C7: at any moment of the refresh loop of the service's poller, whatever
    happened elsewhere in between, [getLatestLicence] gives the value of the
    last refresh whose producer ([getLicense]) succeeded.  So it gives the
    absent marker as long as no refresh has succeeded; it gives the last
    successful value when only failures followed it; and a refresh whose
    producer fails leaves the poller as it was. *)
Theorem getLatestLicence_last_success (rt : Runtime) (w0 w : World rt)
    (p : PolledThingieValue rt (ResponseData License.Response))
    (history : list (Failure + ResponseData License.Response)) :
  rtc (poll_step rt) (poller rt (new_OnlyOfficeService rt), w0, []) (p, w, history) →
  getLatestLicence rt {| poller := p |} = last_success history
  ∧ producer p = getLicense rt
  ∧ (Forall (λ o, ∃ f, o = inl f) history → getLatestLicence rt {| poller := p |} = None)
  ∧ (∀ earlier value later,
       history = earlier ++ inr value :: later →
       Forall (λ o, ∃ f, o = inl f) later →
       getLatestLicence rt {| poller := p |} = Some value)
  ∧ (∀ w' f,
       outcome (getLicense rt w') = inl f →
       (refresh rt p w').1 = p
       ∧ getLatestLicence rt {| poller := (refresh rt p w').1 |}
         = getLatestLicence rt {| poller := p |}).
Proof.
  intros Hsteps. apply poll_step_invariant in Hsteps as [Hlatest Hproducer]; [|done].
  simpl in Hlatest, Hproducer. unfold getLatestLicence. simpl.
  split_and!; [done|done|..].
  - intros Hall. rewrite Hlatest. by apply last_success_failures.
  - intros earlier value later -> Hall. rewrite Hlatest.
    by apply last_success_then_failures.
  - intros w' f Hfail. rewrite <-Hproducer in Hfail.
    by rewrite (refresh_failed rt p w' f Hfail).
Qed.

(** After a successful poll and a failed one, the licence of the first is
    still the latest. *)
Lemma getLatestLicence_after_outage :
  rtc (poll_step Mock.runtime)
      (poller Mock.runtime (new_OnlyOfficeService Mock.runtime), Mock.server [] 5 [], [])
      (polled_twice.1.1, polled_twice.1.2, polled_twice.2)
  ∧ getLatestLicence Mock.runtime {| poller := polled_twice.1.1 |}
    = last_success polled_twice.2
  ∧ polled_twice.2
    = [inr (Mock.respond License_Request []).1; inl (TransportFailure "ECONNREFUSED")]
  ∧ getLatestLicence Mock.runtime {| poller := polled_twice.1.1 |}
    = Some (Mock.respond License_Request []).1.
Proof.
  assert (rtc (poll_step Mock.runtime)
            (poller Mock.runtime (new_OnlyOfficeService Mock.runtime), Mock.server [] 5 [], [])
            (polled_twice.1.1, polled_twice.1.2, polled_twice.2)) as Hsteps.
  { apply (poll_ticks_steps Mock.runtime
             (poller Mock.runtime (new_OnlyOfficeService Mock.runtime),
              Mock.server [] 5 [], [])
             [Refresh Mock.runtime; Elsewhere Mock.runtime (Mock.server [] 0 []);
              Refresh Mock.runtime]). }
  split; [exact Hsteps|].
  split; [exact (proj1 (getLatestLicence_last_success Mock.runtime _ _ _ _ Hsteps))|].
  split; reflexivity.
Defined.

(** ** The shuffle of the pass *)

(** The six draw vectors for a list of three keys give its six orders. *)
Example shuffle_with_three_keys :
  (λ draws, shuffle_with 2 draws ["a"; "b"; "c"]) <$> all_draws 2
  = [["b"; "c"; "a"]; ["c"; "b"; "a"]; ["c"; "a"; "b"];
     ["a"; "c"; "b"]; ["b"; "a"; "c"]; ["a"; "b"; "c"]].
Proof. reflexivity. Qed.

(** C6: the shuffle of the fetched keys is a function of the keys and of the
    draws the random source hands it, and its result is a permutation of the
    keys.  The draws are one of [(length keys)!] vectors (when the source
    stays below its bounds), and every permutation of the keys comes out of
    the same number of them ([arrangements keys], which is positive, and 1
    when no key is listed twice), while nothing else comes out of any: with
    draws uniform over their ranges, every order of the list is as likely as
    any other.  The keys a returning pass works through are that shuffled
    list. *)
Theorem fisherYattesShuffleInPlace_uniform (keys : list string) :
  (∀ rt (w : World rt),
     (fisherYattesShuffleInPlace rt keys w).1
     = shuffle_with (length keys - 1) (draws_from rt (length keys - 1) w) keys
     ∧ (fisherYattesShuffleInPlace rt keys w).1 ≡ₚ keys
     ∧ ((∀ bound w', (Math_random_below rt (S bound) w').1 ≤ bound) →
        draws_from rt (length keys - 1) w ∈ all_draws (length keys - 1)))
  ∧ length (all_draws (length keys - 1)) = fact (length keys)
  ∧ (∀ p, p ≡ₚ keys → ways (length keys - 1) keys p = arrangements keys)
  ∧ (∀ p, ¬ p ≡ₚ keys → ways (length keys - 1) keys p = 0%nat)
  ∧ 0 < arrangements keys
  ∧ (NoDup keys → arrangements keys = 1%nat)
  ∧ (∀ rt processor (w : World rt) n,
       outcome (getForgottenList rt w) = inr keys →
       outcome (processForgotten rt processor w) = inr n →
       url_fetches (events (processForgotten rt processor w)) = shuffled_order rt keys w
       ∧ shuffled_order rt keys w ≡ₚ keys).
Proof.
  split_and!.
  - intros rt w. split_and!.
    + apply shuffle_from_draws.
    + apply fisherYattesShuffleInPlace_Permutation.
    + apply draws_from_valid.
  - apply all_draws_whole_list.
  - intros p Hperm. by apply ways_whole_list.
  - intros p Hnot. apply ways_not_Permutation. by intros Hperm; apply Hnot.
  - apply arrangements_pos.
  - apply arrangements_NoDup.
  - intros rt processor w n Hkeys Hout.
    destruct (processForgotten_trace rt processor w keys Hkeys) as (raw & tr & _ & Hev & Hloop).
    rewrite Hout in Hloop. apply loop_trace_returned in Hloop as (Hfetch & _).
    rewrite Hev. split; [done|]. apply fisherYattesShuffleInPlace_Permutation.
Qed.

(** * Further properties of the command service *)

Section MoreRuns.
Context (rt : Runtime).

Implicit Types (w : World rt) (req : Request) (tr : list Event).

Lemma then_post_once {A} req (field : ResponseData (TSuccessResponse req) → A) :
  posts_once rt (then_ (post rt req) field) req field.
Proof.
  intros w. rewrite then_run, post_run.
  destruct (axios_post rt req w) as [[reason|data] w']; simpl; [done|].
  by case_bool_decide.
Qed.

Section MorePass.
Context (processor : Processor rt).

(** Where the events of an iteration sit: a delete request comes third,
    after the approval of its key, which comes after the URL of its key. *)
Lemma body_trace_delete_position key deleted tr o i key' res :
  body_trace rt processor key deleted tr o →
  tr !! i = Some (Posted (DeleteForgotten_Request key') res) →
  i = 2%nat ∧ key' = key
  ∧ ∃ url raw,
      tr !! 1%nat = Some (Processed key url (inr true))
      ∧ tr !! 0%nat = Some (Posted (GetForgotten_Request key) (Responded 0 raw)).
Proof.
  destruct 1; destruct i as [|[|[|i]]]; intros Hi; simplify_eq/=;
    (split_and!; [done..|by eexists _, _]).
Qed.

Lemma body_trace_processed_position key deleted tr o i key' url res :
  body_trace rt processor key deleted tr o →
  tr !! i = Some (Processed key' url res) →
  i = 1%nat ∧ key' = key
  ∧ ∃ raw, tr !! 0%nat = Some (Posted (GetForgotten_Request key) (Responded 0 raw)).
Proof.
  destruct 1; destruct i as [|[|[|i]]]; intros Hi; simplify_eq/=;
    (split_and!; [done..|by eexists]).
Qed.

Lemma loop_trace_delete_position keys deleted tr o i key res :
  loop_trace rt processor keys deleted tr o →
  tr !! i = Some (Posted (DeleteForgotten_Request key) res) →
  ∃ j url raw,
    i = S (S j)
    ∧ tr !! S j = Some (Processed key url (inr true))
    ∧ tr !! j = Some (Posted (GetForgotten_Request key) (Responded 0 raw)).
Proof.
  intros Hloop. revert i.
  induction Hloop as [|k rest deleted tr f Hbody|k rest deleted deleted' tr tr' o Hbody _ IH];
    intros i Hi; [done|..].
  - destruct (body_trace_delete_position _ _ _ _ _ _ _ Hbody Hi)
      as (-> & -> & url & raw & H1 & H0).
    by exists 0%nat, url, raw.
  - apply lookup_app_Some in Hi as [Hi|[Hlen Hi]].
    + destruct (body_trace_delete_position _ _ _ _ _ _ _ Hbody Hi)
        as (-> & -> & url & raw & H1 & H0).
      exists 0%nat, url, raw. split_and!; [done|by apply lookup_app_l_Some..].
    + destruct (IH _ Hi) as (j & url & raw & Hj & H1 & H0).
      exists (length tr + j)%nat, url, raw. split_and!; [lia|..].
      * rewrite lookup_app_r by lia. rewrite <-H1. f_equal. lia.
      * rewrite lookup_app_r by lia. rewrite <-H0. f_equal. lia.
Qed.

Lemma loop_trace_processed_position keys deleted tr o i key url res :
  loop_trace rt processor keys deleted tr o →
  tr !! i = Some (Processed key url res) →
  ∃ j raw,
    i = S j ∧ tr !! j = Some (Posted (GetForgotten_Request key) (Responded 0 raw)).
Proof.
  intros Hloop. revert i.
  induction Hloop as [|k rest deleted tr f Hbody|k rest deleted deleted' tr tr' o Hbody _ IH];
    intros i Hi; [done|..].
  - destruct (body_trace_processed_position _ _ _ _ _ _ _ _ Hbody Hi) as (-> & -> & raw & H0).
    by exists 0%nat, raw.
  - apply lookup_app_Some in Hi as [Hi|[Hlen Hi]].
    + destruct (body_trace_processed_position _ _ _ _ _ _ _ _ Hbody Hi)
        as (-> & -> & raw & H0).
      exists 0%nat, raw. split; [done|by apply lookup_app_l_Some].
    + destruct (IH _ Hi) as (j & raw & Hj & H0).
      exists (length tr + j)%nat, raw. split; [lia|].
      rewrite lookup_app_r by lia. rewrite <-H0. f_equal. lia.
Qed.

(** How many events and requests a loop that returns has made. *)
Lemma body_trace_counts key deleted tr deleted' :
  body_trace rt processor key deleted tr (inr deleted') →
  length (requests tr) = (1 + (deleted' - deleted))%nat
  ∧ length tr = (2 + (deleted' - deleted))%nat
  ∧ (deleted ≤ deleted' ≤ S deleted)%nat.
Proof. inversion 1; subst; simpl; lia. Qed.

Lemma loop_trace_counts keys deleted tr n :
  loop_trace rt processor keys deleted tr (inr n) →
  length (requests tr) = (length keys + (n - deleted))%nat
  ∧ length tr = (2 * length keys + (n - deleted))%nat
  ∧ (deleted ≤ n ≤ deleted + length keys)%nat.
Proof.
  remember (inr n) as o eqn:Ho. intros Hloop. revert n Ho.
  induction Hloop as [| |key rest deleted deleted' tr tr' o Hbody _ IH]; intros n Ho;
    simplify_eq.
  { simpl. lia. }
  destruct (IH n eq_refl) as (Hr & Hl & Hn).
  destruct (body_trace_counts _ _ _ _ Hbody) as (Hr' & Hl' & Hn').
  unfold requests in *. rewrite omap_app, !length_app, Hr, Hr', Hl, Hl'. simpl. lia.
Qed.

End MorePass.

End MoreRuns.

(** X1: [postUnsafe] never looks at the [error] field: it hands back whatever
    response the transport delivers, whatever its code, and the only thing it
    throws is the transport's failure, never a [CommandError].  [post] sends
    the very same request and leaves the same world; it differs in its
    outcome alone, and only for a response whose code is not [SUCCESS]. *)
Theorem postUnsafe_never_checks (rt : Runtime) (req : Request) (w : World rt) :
  events (post rt req w) = events (postUnsafe rt req w)
  ∧ world_after (post rt req w) = world_after (postUnsafe rt req w)
  ∧ (∀ e, outcome (postUnsafe rt req w) ≠ inl (CommandFailure e))
  ∧ (∀ data w', axios_post rt req w = (inr data, w') →
       outcome (postUnsafe rt req w) = inr data)
  ∧ (∀ f, outcome (postUnsafe rt req w) = inl f → outcome (post rt req w) = inl f)
  ∧ (∀ data, outcome (post rt req w) = inr data →
       outcome (postUnsafe rt req w) = inr data ∧ error data = 0%Z)
  ∧ (∀ data, outcome (postUnsafe rt req w) = inr data → error data ≠ 0%Z →
       outcome (post rt req w)
       = inl (CommandFailure (new_CommandError rt (error data) req data))).
Proof.
  rewrite post_run. unfold postUnsafe.
  destruct (axios_post rt req w) as [[reason|data] w']; simpl.
  - split_and!; try done; by intros; simplify_eq.
  - split_and!; try done.
    + by intros; simplify_eq.
    + intros data' Hdata. case_bool_decide; by simplify_eq.
    + intros data' [= ->] Herr. by rewrite bool_decide_eq_false_2.
Qed.

(** X2: every method of the service is one request and nothing else.  It
    posts its own command once; when the transport fails it throws the
    transport's failure; when the response carries a code other than
    [SUCCESS] it throws the [CommandError] of that code, request and
    response; otherwise it returns its field of the response: the version,
    the key, the URL, the keys, or, for [getLicense], the response itself. *)
Theorem service_methods_post_once (rt : Runtime) :
  posts_once rt (getVersion rt) Version_Request (λ response, Version.version (fields response))
  ∧ posts_once rt (getLicense rt) License_Request (λ response, response)
  ∧ (∀ key userdata,
       posts_once rt (forceSave rt key userdata) (ForceSave_Request key userdata)
         (λ response, ForceSave.key (fields response)))
  ∧ posts_once rt (getForgottenList rt) GetForgottenList_Request
      (λ response, GetForgottenList.keys (fields response))
  ∧ (∀ key,
       posts_once rt (getForgotten rt key) (GetForgotten_Request key)
         (λ response, GetForgotten.url (fields response)))
  ∧ (∀ key,
       posts_once rt (deleteForgotten rt key) (DeleteForgotten_Request key)
         (λ response, DeleteForgotten.key (fields response))).
Proof.
  split_and!; intros; try apply then_post_once.
  intros w. unfold getLicense. rewrite post_run.
  by destruct (axios_post rt License_Request w) as [[reason|data] w'].
Qed.

Section Failing.
Context (rt : Runtime) (processor : Processor rt).

(** Whatever throws during a pass ends it. *)
Lemma processForgotten_failing_event (w : World rt) e f :
  e ∈ events (processForgotten rt processor w) →
  event_failure rt e = Some f →
  outcome (processForgotten rt processor w) = inl f
  ∧ last (events (processForgotten rt processor w)) = Some e.
Proof.
  intros Hin Hfail.
  destruct (outcome (getForgottenList rt w)) as [f0|keys] eqn:Hlist.
  - destruct (processForgotten_list_failed rt processor w f0 Hlist) as (res0 & Hf0 & Hout & Hev).
    rewrite Hev in Hin |- *. apply list_elem_of_singleton in Hin. simplify_eq.
    by rewrite Hout.
  - destruct (processForgotten_trace rt processor w keys Hlist) as (raw & tr & _ & Hev & Hloop).
    rewrite Hev in Hin |- *. apply elem_of_cons in Hin as [Hin|Hin]; [by simplify_eq|].
    destruct (outcome (processForgotten rt processor w)) as [f'|n].
    + apply loop_trace_last in Hloop as (tr' & e' & -> & Hquiet & He).
      apply elem_of_app in Hin as [Hin|Hin].
      { rewrite Forall_forall in Hquiet. apply Hquiet in Hin. unfold quiet in Hin. congruence. }
      apply list_elem_of_singleton in Hin. subst e'.
      split; [congruence|]. by rewrite app_comm_cons, last_snoc.
    + apply loop_trace_returned in Hloop as (_ & _ & _ & _ & Hquiet & _).
      rewrite Forall_forall in Hquiet. apply Hquiet in Hin. unfold quiet in Hin. congruence.
Qed.

End Failing.

(** X3: a processor that throws ends the pass like a failed request does.
    The pass throws what the processor threw, the call of the processor is
    the last thing it did, and the request before it is the URL request of
    the same key: no delete request follows for the key it was handling. *)
Theorem processForgotten_processor_throws (rt : Runtime) (processor : Processor rt)
    (w : World rt) (key url reason : string) :
  Processed key url (inl reason) ∈ events (processForgotten rt processor w) →
  outcome (processForgotten rt processor w) = inl (ProcessorFailure reason)
  ∧ last (events (processForgotten rt processor w)) = Some (Processed key url (inl reason))
  ∧ ∃ j raw,
      length (events (processForgotten rt processor w)) = S (S j)
      ∧ events (processForgotten rt processor w) !! S j = Some (Processed key url (inl reason))
      ∧ events (processForgotten rt processor w) !! j
        = Some (Posted (GetForgotten_Request key) (Responded 0 raw)).
Proof.
  intros Hin.
  destruct (processForgotten_failing_event rt processor w _ _ Hin eq_refl) as [Hout Hlast].
  split_and!; [done..|].
  destruct (outcome (getForgottenList rt w)) as [f0|keys] eqn:Hlist.
  { destruct (processForgotten_list_failed rt processor w f0 Hlist) as (res0 & _ & _ & Hev).
    rewrite Hev in Hin. by apply list_elem_of_singleton in Hin. }
  destruct (processForgotten_trace rt processor w keys Hlist) as (raw0 & tr & _ & Hev & Hloop).
  rewrite Hev in Hlast |- *.
  apply last_Some in Hlast as [before Hbefore].
  destruct before as [|e0 before]; simplify_eq/=.
  assert ((before ++ [Processed key url (inl reason)]) !! length before
          = Some (Processed key url (inl reason))) as Hat.
  { by rewrite lookup_app_r, Nat.sub_diag by lia. }
  destruct (loop_trace_processed_position _ _ _ _ _ _ _ _ _ _ Hloop Hat) as (j & raw & Hj & H0).
  exists (S j), raw. rewrite length_app. simpl. split_and!; [lia| |done].
  by rewrite <-Hj.
Qed.

(** The processor cannot store b, the first key of the shuffled order. *)
Lemma processForgotten_storage_unavailable :
  Processed "b" "https://docs.example/forgotten/b" (inl "storage unavailable")
    ∈ events (processForgotten Mock.runtime stores_all_but_b scenario)
  ∧ outcome (processForgotten Mock.runtime stores_all_but_b scenario)
    = inl (ProcessorFailure "storage unavailable")
  ∧ delete_calls (events (processForgotten Mock.runtime stores_all_but_b scenario)) = [].
Proof.
  assert (Processed "b" "https://docs.example/forgotten/b" (inl "storage unavailable")
            ∈ events (processForgotten Mock.runtime stores_all_but_b scenario))
    as Hin by (vm_compute; repeat constructor).
  split; [exact Hin|]. split; [|reflexivity].
  exact (proj1 (processForgotten_processor_throws Mock.runtime stores_all_but_b scenario
                  _ _ _ Hin)).
Defined.

(** X4: a pass never deletes a key on its own.  Wherever a delete request
    stands among its events, the event just before it is the processor
    answering true for that very key, and the one before that is the
    successful URL request of that key. *)
Theorem processForgotten_deletes_only_after_approval (rt : Runtime)
    (processor : Processor rt) (w : World rt) (i : nat) (key : string) (res : PostResult) :
  events (processForgotten rt processor w) !! i
    = Some (Posted (DeleteForgotten_Request key) res) →
  ∃ j url raw,
    i = S (S j)
    ∧ events (processForgotten rt processor w) !! S j = Some (Processed key url (inr true))
    ∧ events (processForgotten rt processor w) !! j
      = Some (Posted (GetForgotten_Request key) (Responded 0 raw)).
Proof.
  intros Hi.
  destruct (outcome (getForgottenList rt w)) as [f0|keys] eqn:Hlist.
  { destruct (processForgotten_list_failed rt processor w f0 Hlist) as (res0 & _ & _ & Hev).
    rewrite Hev in Hi. by destruct i as [|[|i]]. }
  destruct (processForgotten_trace rt processor w keys Hlist) as (raw0 & tr & _ & Hev & Hloop).
  rewrite Hev in Hi |- *. destruct i as [|i]; [done|]. simpl in Hi.
  destruct (loop_trace_delete_position _ _ _ _ _ _ _ _ _ Hloop Hi) as (j & url & raw & -> & H1 & H0).
  by exists (S j), url, raw.
Qed.

(** In the scenario the sixth event deletes a, right after its approval. *)
Lemma processForgotten_scenario_delete_a :
  events (processForgotten Mock.runtime (Mock.decide_by keep_a_and_c) scenario) !! 5%nat
    = Some (Posted (DeleteForgotten_Request "a") (Responded 0 "0"))
  ∧ ∃ url,
      events (processForgotten Mock.runtime (Mock.decide_by keep_a_and_c) scenario) !! 4%nat
      = Some (Processed "a" url (inr true)).
Proof.
  split; [reflexivity|].
  destruct (processForgotten_deletes_only_after_approval Mock.runtime
              (Mock.decide_by keep_a_and_c) scenario 5 "a" (Responded 0 "0") eq_refl)
    as (j & url & raw & Hj & Happroved & _).
  injection Hj as <-. by exists url.
Defined.

(** X5: what a pass that returns [n] costs.  Its events are the calls it
    made: every request among them was handed to the transport and every
    processor event is a call of the processor, each in the world the call
    before left, and nothing else touched the world.  They are one request
    for the list, one URL request for each listed key and one delete request
    for each of the [n] deletions, and one call of the processor for each
    listed key; [n] is at most the number of listed keys. *)
Theorem processForgotten_request_count (rt : Runtime) (processor : Processor rt)
    (w : World rt) (keys : list string) (n : nat) :
  outcome (getForgottenList rt w) = inr keys →
  outcome (processForgotten rt processor w) = inr n →
  calls_made rt processor w keys (events (processForgotten rt processor w))
    (world_after (processForgotten rt processor w))
  ∧ length (requests (events (processForgotten rt processor w))) = (1 + length keys + n)%nat
  ∧ length (processor_calls (events (processForgotten rt processor w))) = length keys
  ∧ length (events (processForgotten rt processor w)) = (1 + 2 * length keys + n)%nat
  ∧ (n ≤ length keys)%nat.
Proof.
  intros Hkeys Hout.
  destruct (processForgotten_trace rt processor w keys Hkeys) as (raw & tr & _ & Hev & Hloop).
  rewrite Hout in Hloop.
  pose proof (Permutation_length
                (fisherYattesShuffleInPlace_Permutation rt keys
                   (world_after (getForgottenList rt w)))) as Hlen.
  fold (shuffled_order rt keys w) in Hlen.
  destruct (loop_trace_counts _ _ _ _ _ _ Hloop) as (Hr & Hl & Hn).
  apply loop_trace_returned in Hloop as (_ & Hp & _).
  split; [by apply processForgotten_calls_made|].
  rewrite Hev.
  change (requests (_ :: tr)) with (GetForgottenList_Request :: requests tr).
  change (processor_calls (_ :: tr)) with (processor_calls tr).
  rewrite Hp. simpl. rewrite Hr, Hl, Hlen. lia.
Qed.

(** The scenario costs six requests (the list, three URLs and two deletions)
    and three calls of the processor, and the world shows them: the server
    has answered six times and the processor has left its mark three times. *)
Lemma processForgotten_scenario_cost :
  outcome (getForgottenList Mock.runtime scenario) = inr ["a"; "b"; "c"]
  ∧ outcome (processForgotten Mock.runtime (stamps_and_decides keep_a_and_c) scenario)
    = inr 2%nat
  ∧ length (requests (events (processForgotten Mock.runtime (stamps_and_decides keep_a_and_c)
                                scenario))) = 6%nat
  ∧ world_after (processForgotten Mock.runtime (stamps_and_decides keep_a_and_c) scenario)
    = {| Mock.forgotten := ["b"]; Mock.answers := 4; Mock.dice := []; Mock.clock := 306 |}.
Proof.
  split; [reflexivity|]. split; [reflexivity|]. split; [|reflexivity].
  exact (proj1 (proj2 (processForgotten_request_count Mock.runtime
                         (stamps_and_decides keep_a_and_c) scenario ["a"; "b"; "c"] 2
                         eq_refl eq_refl))).
Defined.

(** X6: an iteration hands the processor the key together with the URL the
    server returned for it, in the world the URL request left.  When the
    processor answers false or throws, the iteration stops there, with the
    count as it was or with what was thrown; when it answers true, exactly
    one more request follows, the delete request of the key. *)
Theorem processForgotten_body_hands_over_url (rt : Runtime) (processor : Processor rt)
    (key : string) (deleted : nat) (w w1 : World rt)
    (data : ResponseData GetForgotten.Response) :
  axios_post rt (GetForgotten_Request key) w = (inr data, w1) →
  error data = 0%Z →
  ∃ rest,
    events (processForgotten_body rt processor key deleted w)
    = Posted (GetForgotten_Request key)
        (Responded 0 (JSON_stringify_response rt (GetForgotten_Request key) data))
      :: Processed key (GetForgotten.url (fields data))
           (processor key (GetForgotten.url (fields data)) w1).1
      :: rest
    ∧ ((processor key (GetForgotten.url (fields data)) w1).1 = inr false →
       rest = []
       ∧ outcome (processForgotten_body rt processor key deleted w) = inr deleted
       ∧ world_after (processForgotten_body rt processor key deleted w)
         = (processor key (GetForgotten.url (fields data)) w1).2)
    ∧ (∀ reason,
         (processor key (GetForgotten.url (fields data)) w1).1 = inl reason →
         rest = []
         ∧ outcome (processForgotten_body rt processor key deleted w)
           = inl (ProcessorFailure reason))
    ∧ ((processor key (GetForgotten.url (fields data)) w1).1 = inr true →
       requests rest = [DeleteForgotten_Request key]
       ∧ length rest = 1%nat).
Proof.
  intros Hpost Herr. unfold processForgotten_body. rewrite bind_run.
  pose proof (then_post_once rt (GetForgotten_Request key)
                (λ response, GetForgotten.url (fields response)) w) as Hfetch.
  fold (getForgotten rt key) in Hfetch.
  rewrite Hpost in Hfetch. cbn iota in Hfetch.
  rewrite (Herr : @error (TSuccessResponse (GetForgotten_Request key)) data = 0%Z) in Hfetch.
  simpl in Hfetch. rewrite Hfetch.
  cbn [outcome events world_after]. rewrite bind_run. unfold call_processor.
  destruct (processor key (GetForgotten.url (fields data)) w1) as [[reason|[|]] w2];
    cbn [outcome events world_after fst snd].
  - eexists. split; [done|]. split_and!; [done| |done]. intros ? [= <-]. done.
  - rewrite bind_run.
    destruct (deleteForgotten_event rt key w2) as (res & Hev & _).
    destruct (deleteForgotten rt key w2) as [[f|?] w3 ev]; simpl in Hev; subst ev;
      cbn [outcome events world_after]; eexists; (split; [done|]);
      split_and!; done.
  - eexists. split; [done|]. split_and!; done.
Qed.

(** The server returns the URL of a; the processor is called with it. *)
Lemma processForgotten_body_on_a :
  axios_post Mock.runtime (GetForgotten_Request "a") (Mock.server ["a"] 3 [])
    = (inr (Mock.respond (GetForgotten_Request "a") ["a"]).1,
       {| Mock.forgotten := ["a"]; Mock.answers := 2; Mock.dice := []; Mock.clock := 1 |})
  ∧ error (Mock.respond (GetForgotten_Request "a") ["a"]).1 = 0%Z
  ∧ ∃ rest,
      events (processForgotten_body Mock.runtime (Mock.decide_by (λ _, false)) "a" 0
                (Mock.server ["a"] 3 []))
      = Posted (GetForgotten_Request "a") (Responded 0 "0")
        :: Processed "a" "https://docs.example/forgotten/a" (inr false)
        :: rest.
Proof.
  split; [reflexivity|]. split; [reflexivity|].
  destruct (processForgotten_body_hands_over_url Mock.runtime (Mock.decide_by (λ _, false))
              "a" 0 (Mock.server ["a"] 3 [])
              {| Mock.forgotten := ["a"]; Mock.answers := 2; Mock.dice := []; Mock.clock := 1 |}
              (Mock.respond (GetForgotten_Request "a") ["a"]).1 eq_refl eq_refl)
    as (rest & Hev & _).
  exists rest. exact Hev.
Defined.

(** X7: a pass stays within the list it fetched.  Its first request is the
    list request; every later request is the URL request or the delete
    request of a key of that list, and the processor is called on keys of
    that list only. *)
Theorem processForgotten_only_listed_keys (rt : Runtime) (processor : Processor rt)
    (w : World rt) (keys : list string) :
  outcome (getForgottenList rt w) = inr keys →
  ∃ later,
    requests (events (processForgotten rt processor w)) = GetForgottenList_Request :: later
    ∧ Forall (λ req, ∃ key, key ∈ keys
                            ∧ (req = GetForgotten_Request key
                               ∨ req = DeleteForgotten_Request key)) later
    ∧ Forall (λ key, key ∈ keys) (processor_calls (events (processForgotten rt processor w))).
Proof.
  intros Hkeys.
  destruct (processForgotten_trace rt processor w keys Hkeys) as (raw & tr & _ & Hev & Hloop).
  pose proof (fisherYattesShuffleInPlace_Permutation rt keys
                (world_after (getForgottenList rt w))) as Hshuffle.
  fold (shuffled_order rt keys w) in Hshuffle.
  apply loop_trace_events in Hloop. rewrite Hev.
  exists (requests tr). split; [done|].
  change (processor_calls (_ :: tr)) with (processor_calls tr).
  unfold requests, processor_calls.
  clear Hev. induction tr as [|e tr IH]; [by split|].
  apply Forall_cons in Hloop as [(key & Hkey & He) Hloop].
  destruct (IH Hloop) as [IH1 IH2]. rewrite Hshuffle in Hkey.
  destruct e as [req res|key' url res]; simpl in *.
  - split; [|done]. constructor; [|done]. by exists key.
  - destruct He as [-> _]. split; [done|]. by constructor.
Qed.

Lemma processForgotten_scenario_requests :
  outcome (getForgottenList Mock.runtime scenario) = inr ["a"; "b"; "c"]
  ∧ (∃ later,
       requests (events (processForgotten Mock.runtime (Mock.decide_by keep_a_and_c) scenario))
       = GetForgottenList_Request :: later)
  ∧ requests (events (processForgotten Mock.runtime (Mock.decide_by keep_a_and_c) scenario))
    = [GetForgottenList_Request; GetForgotten_Request "b"; GetForgotten_Request "a";
       DeleteForgotten_Request "a"; GetForgotten_Request "c"; DeleteForgotten_Request "c"].
Proof.
  split; [reflexivity|]. split; [|reflexivity].
  destruct (processForgotten_only_listed_keys Mock.runtime (Mock.decide_by keep_a_and_c)
              scenario ["a"; "b"; "c"] eq_refl) as (later & Hreq & _).
  exists later. exact Hreq.
Defined.

(** * Properties of the Emojione component *)

Module EmojioneFacts.
Import Emojione.

Lemma substring_0_length n s : String.length (String.substring 0 n s) ≤ n.
Proof.
  revert s. induction n as [|n IH]; intros [|a s]; simpl; try lia.
  specialize (IH s). lia.
Qed.

Lemma substring_0_split n s : ∃ rest, s = String.substring 0 n s +:+ rest.
Proof.
  revert s. induction n as [|n IH]; intros [|a s]; simpl.
  - by exists EmptyString.
  - by exists (String a s).
  - by exists EmptyString.
  - destruct (IH s) as [rest Hrest]. exists rest. by rewrite Hrest at 1.
Qed.

Lemma substring_0_app p rest : String.substring 0 (String.length p) (p +:+ rest) = p.
Proof.
  induction p as [|a p IH]; simpl.
  - by destruct rest.
  - by rewrite IH.
Qed.

(** The test for the project's own emoji compares seven characters with a
    text of eight. *)
Lemma never_tdrive t : String.substring 0 7 t ≠ ":tdrive-".
Proof.
  intros Heq. pose proof (substring_0_length 7 t) as Hlen.
  rewrite Heq in Hlen. simpl in Hlen. lia.
Qed.

Lemma is_link_tests t :
  is_link t
  ↔ bool_decide (String.substring 0 7 t = "http://")
    || bool_decide (String.substring 0 8 t = "https://") = true.
Proof.
  rewrite orb_true_iff, !bool_decide_eq_true. unfold is_link. split.
  - intros [[rest ->]|[rest ->]].
    + left. apply (substring_0_app "http://").
    + right. apply (substring_0_app "https://").
  - intros [Heq|Heq].
    + left. destruct (substring_0_split 7 t) as [rest Hrest]. exists rest. by rewrite <-Heq.
    + right. destruct (substring_0_split 8 t) as [rest Hrest]. exists rest. by rewrite <-Heq.
Qed.

Lemma trash_is_no_link : ¬ is_link "trash".
Proof. by intros [[rest Hrest]|[rest Hrest]]. Qed.

Lemma tdrive_is_no_link rest : ¬ is_link (":tdrive-" +:+ rest).
Proof. by intros [[rest' Hrest]|[rest' Hrest]]. Qed.

(** The component by cases on its type. *)
Lemma Emojione_cases env props cache :
  Emojione env props cache =
    match type props with
    | None => (Fragment env, cache)
    | Some t =>
        if bool_decide (t = "trash") then (Icon env "trash" "trash_emoji", cache)
        else if bool_decide (String.substring 0 7 t = "http://")
                || bool_decide (String.substring 0 8 t = "https://") then
          (ImageTag env ("emojione emoji-image " +:+ or_string (className props) "")
             ("url('" +:+ t +:+ "')"),
           cache)
        else if bool_decide (32 < or_number (size props) 16)%Z
                || truthy (s64 props) || truthy (s128 props) then
          (Fallback env props, cache)
        else
          (EmojiSpan env ("emoji-container emoji-text " +:+ or_string (className props) "")
             (match match cache_get env cache t with
                    | Some u => Some u
                    | None => getEmojiDataFromNative env (emojione_shortnameToUnicode env t)
                    end
              with Some u => inl u | None => inr t end)
             "apple" (or_number (size props) 16)
             (backgroundImageFn env (or_number (size props) 16)) props,
           cache_set env cache t
             (match cache_get env cache t with
              | Some u => Some u
              | None => getEmojiDataFromNative env (emojione_shortnameToUnicode env t)
              end))
    end.
Proof.
  unfold Emojione. destruct (type props) as [t|]; [|done].
  case_bool_decide; [done|].
  rewrite (bool_decide_eq_false_2 (String.substring 0 7 t = ":tdrive-")) by apply never_tdrive.
  done.
Qed.

Lemma over_32_iff (k : option Z) :
  (32 < or_number k 16)%Z ↔ ∃ n, k = Some n ∧ (32 < n)%Z.
Proof.
  split.
  - destruct k as [[|n|n]|]; simpl; try lia; by eexists.
  - intros (n & -> & Hn). destruct n; simpl; lia.
Qed.

Lemma truthy_iff (flag : option bool) : truthy flag = true ↔ flag = Some true.
Proof. by destruct flag as [[|]|]. Qed.

(** X9: the component renders an image tag exactly for a type that is a link
    (it starts with http:// or https://), and the image is that link.  The
    test for the project's own emoji never succeeds, because it compares the
    first seven characters of the type with the eight characters of
    [:tdrive-]: no type is rendered as an image under
    [/public/img/tdrive-emoji/]. *)
Theorem Emojione_image_iff_link (env : Env) (props : Props) (cache : Cache env)
    (cls bg : string) :
  ((Emojione env props cache).1 = ImageTag env cls bg
   ↔ ∃ t, type props = Some t ∧ is_link t
        ∧ cls = "emojione emoji-image " +:+ or_string (className props) ""
        ∧ bg = "url('" +:+ t +:+ "')")
  ∧ (∀ rest, type props = Some (":tdrive-" +:+ rest) →
       (Emojione env props cache).1 ≠ ImageTag env cls bg)
  ∧ (∀ t, String.substring 0 7 t ≠ ":tdrive-").
Proof.
  assert ((Emojione env props cache).1 = ImageTag env cls bg
          ↔ ∃ t, type props = Some t ∧ is_link t
               ∧ cls = "emojione emoji-image " +:+ or_string (className props) ""
               ∧ bg = "url('" +:+ t +:+ "')") as Hiff.
  { rewrite Emojione_cases. destruct (type props) as [t|]; [|by split; [|intros (?&?&_)]].
    case_bool_decide as Htrash.
    { split; [done|]. intros (t' & [= <-] & Hlink & _). subst t.
      by apply trash_is_no_link in Hlink. }
    destruct (bool_decide (String.substring 0 7 t = "http://")
              || bool_decide (String.substring 0 8 t = "https://")) eqn:Htest.
    - apply is_link_tests in Htest. simpl. split.
      + intros [= <- <-]. by exists t.
      + by intros (t' & [= <-] & _ & -> & ->).
    - assert (¬ is_link t) as Hno by (rewrite is_link_tests; congruence).
      split.
      + by destruct (bool_decide (32 < _)%Z || _ || _).
      + by intros (t' & [= <-] & Hlink & _). }
  split_and!; [done| |apply never_tdrive].
  intros rest Htype Himage. apply Hiff in Himage as (t & Ht & Hlink & _).
  rewrite Htype in Ht. injection Ht as <-. by apply tdrive_is_no_link in Hlink.
Qed.

(** X10: the component hands over to [EmojioneFallback] exactly when the type
    is a string other than trash and not a link, and the size is above 32 or
    one of the flags s64 and s128 is set; it passes its own props on.  A
    missing size, or the size 0, counts as 16. *)
Theorem Emojione_fallback_iff (env : Env) (props : Props) (cache : Cache env) (p : Props) :
  (Emojione env props cache).1 = Fallback env p
  ↔ p = props
    ∧ ∃ t, type props = Some t ∧ t ≠ "trash" ∧ ¬ is_link t
        ∧ ((∃ n, size props = Some n ∧ (32 < n)%Z)
           ∨ s64 props = Some true ∨ s128 props = Some true).
Proof.
  rewrite Emojione_cases. destruct (type props) as [t|]; [|by split; [|intros (_&?&?&_)]].
  case_bool_decide as Htrash.
  { split; [done|]. by intros (_ & t' & [= <-] & Hne & _). }
  destruct (bool_decide (String.substring 0 7 t = "http://")
            || bool_decide (String.substring 0 8 t = "https://")) eqn:Htest.
  { apply is_link_tests in Htest. split; [done|].
    by intros (_ & t' & [= <-] & _ & Hno & _). }
  assert (¬ is_link t) as Hno by (rewrite is_link_tests; congruence).
  destruct (bool_decide (32 < or_number (size props) 16)%Z
            || truthy (s64 props) || truthy (s128 props)) eqn:Hbig.
  - rewrite !orb_true_iff, bool_decide_eq_true, over_32_iff, !truthy_iff in Hbig.
    simpl. split.
    + intros [= <-]. split; [done|]. exists t. split_and!; [done..|]. tauto.
    + by intros [-> _].
  - split; [done|]. intros (_ & t' & [= <-] & _ & _ & Hwhy).
    rewrite <-over_32_iff, <-!truthy_iff, <-(bool_decide_eq_true (32 < _)%Z) in Hwhy.
    rewrite <-!orb_true_iff in Hwhy. rewrite orb_assoc in Hwhy. congruence.
Qed.

(** X11: when the component renders an [Emoji], its size is that of the
    props (16 when it is missing or 0) and is at most 32; the set is apple;
    the fallback gets the same props; and the sprite sheet asked for is the
    sheet of that size when the size is 16, 20 or 32, and the sheet of 64 for
    every other size. *)
Theorem Emojione_sheet (env : Env) (props : Props) (cache : Cache env)
    (cls : string) (em : Uni env + string) (set : string) (sz : Z)
    (fn : string → string) (fb : Props) :
  (Emojione env props cache).1 = EmojiSpan env cls em set sz fn fb →
  set = "apple" ∧ fb = props ∧ (sz ≤ 32)%Z
  ∧ (size props = None ∨ size props = Some 0%Z → sz = 16%Z)
  ∧ (∀ n, size props = Some n → n ≠ 0%Z → sz = n)
  ∧ ∀ s,
      fn s
      = getAsFrontUrl env
          ("/public/emoji-datasource/" +:+ s +:+ "/sheets-256/"
           +:+ pretty (if bool_decide (sz ∈ [16; 20; 32]%Z) then sz else 64%Z) +:+ ".png").
Proof.
  rewrite Emojione_cases. destruct (type props) as [t|]; [|done].
  case_bool_decide; [done|].
  destruct (bool_decide (String.substring 0 7 t = _) || _); [done|].
  destruct (bool_decide (32 < or_number (size props) 16)%Z
            || truthy (s64 props) || truthy (s128 props)) eqn:Hbig; [done|].
  apply orb_false_iff in Hbig as [Hbig _]. apply orb_false_iff in Hbig as [Hbig _].
  apply bool_decide_eq_false in Hbig.
  simpl. intros [= <- <- <- <- <- <-]. split_and!; [done|done|lia|..].
  - by intros [->| ->].
  - intros n -> Hn. by destruct n.
  - intros s. unfold backgroundImageFn, sheet_size. do 4 f_equal.
    repeat case_bool_decide; try done.
    + exfalso. set_unfold. lia.
    + exfalso. set_unfold. tauto.
Qed.

(** An emoji of size 24 is drawn from the sheet of 64. *)
Lemma Emojione_sheet_of_24 :
  (Emojione plain (props_of ":smile:" (Some 24%Z)) []).1
    = EmojiSpan plain "emoji-container emoji-text " (inr ":smile:") "apple" 24
        (backgroundImageFn plain 24) (props_of ":smile:" (Some 24%Z))
  ∧ backgroundImageFn plain 24 "apple" = "/public/emoji-datasource/apple/sheets-256/64.png".
Proof.
  split; [reflexivity|].
  destruct (Emojione_sheet plain (props_of ":smile:" (Some 24%Z)) [] _ _ _ _ _ _ eq_refl)
    as (_ & _ & _ & _ & _ & Hfn).
  exact (Hfn "apple").
Defined.

End EmojioneFacts.
